(** * Pipeline event-log queries (DE 4.4 - Pipeline Event Logs)

    A shallow embedding of the notebook's queries over the Delta Live Tables
    event log: the latest-update lookup, the lineage self-join with its
    PIVOT, and the data-quality roll-up.  Tables are lists of rows (SQL bags
    in some order), NULL is [None], and every CTE of the notebook is one
    definition carrying the CTE's name. *)

From stdpp Require Import base option list strings gmap sorting pretty.
From Stdlib Require Import ZArith Lia Ascii.

Set Warnings "-register-all".

Local Open Scope string_scope.
Local Open Scope Z_scope.

(** ** The event log *)

(** The [details] column holds nested JSON.  It is modelled by its parse
    tree; a [details] text that is NULL or is not JSON at all is [None]
    (Spark's path extraction yields NULL on both).  Numbers are the integer
    ones, which is what the counts of the log are. *)
Inductive json : Type :=
| JNull
| JBool (b : bool)
| JNum (n : Z)
| JStr (s : string)
| JArr (elems : list json)
| JObj (fields : list (string * json)).

(** [origin] is a struct column; only [update_id] is read by the notebook. *)
Record Origin := { update_id : option string }.

Record EventRecord := {
  event_type : string;
  timestamp : Z;
  origin : Origin;
  details : option json
}.

(** ** Spark's JSON and regexp builtins, as far as the notebook uses them *)

Module Json.

Fixpoint field (k : string) (fs : list (string * json)) : option json :=
  match fs with
  | [] => None
  | (k', v) :: fs' => if decide (k = k') then Some v else field k fs'
  end.

(** [details:a.b.c] (equally [details:a:b:c]): walk the keys; a missing
    key, a non-object on the way and a JSON null all give NULL. *)
Fixpoint path (j : option json) (keys : list string) : option json :=
  match keys with
  | [] => match j with Some JNull => None | _ => j end
  | k :: keys' =>
      match j with
      | Some (JObj fs) => path (field k fs) keys'
      | _ => None
      end
  end.

Definition dquote : ascii := Ascii.ascii_of_nat 34.
Definition backslash : ascii := Ascii.ascii_of_nat 92.

(** The digits of a [\uXXXX] escape, upper case. *)
Definition hex_digit (n : nat) : ascii :=
  nth n (String.list_ascii_of_string "0123456789ABCDEF") (Ascii.ascii_of_nat 48).

(** How a character is printed inside a JSON string: the quote and the
    backslash behind a backslash, the characters below U+0020 by their
    short escape (b, t, n, f, r) or by [\u00XX], any other character as it
    is. *)
Definition escape_char (c : ascii) : string :=
  let n := Ascii.nat_of_ascii c in
  let esc (x : ascii) := String backslash (String x EmptyString) in
  if decide (c = dquote) then esc dquote
  else if decide (c = backslash) then esc backslash
  else if decide (n = 8)%nat then esc (Ascii.ascii_of_nat 98)
  else if decide (n = 9)%nat then esc (Ascii.ascii_of_nat 116)
  else if decide (n = 10)%nat then esc (Ascii.ascii_of_nat 110)
  else if decide (n = 12)%nat then esc (Ascii.ascii_of_nat 102)
  else if decide (n = 13)%nat then esc (Ascii.ascii_of_nat 114)
  else if decide (n < 32)%nat then
    String backslash
      (String (Ascii.ascii_of_nat 117)
         (String (Ascii.ascii_of_nat 48)
            (String (Ascii.ascii_of_nat 48)
               (String (hex_digit (n / 16))
                  (String (hex_digit (n mod 16)) EmptyString)))))
  else String c EmptyString.

Fixpoint escape (s : string) : string :=
  match s with
  | EmptyString => EmptyString
  | String c s' => escape_char c +:+ escape s'
  end.

Definition quote (s : string) : string :=
  String dquote (escape s +:+ String dquote EmptyString).

(** Compact JSON text, as the extraction operator prints a non-string
    value. *)
Fixpoint text (j : json) : string :=
  match j with
  | JNull => "null"
  | JBool b => if b then "true" else "false"
  | JNum n => pretty n
  | JStr s => quote s
  | JArr l => "[" +:+ String.concat "," (map text l) +:+ "]"
  | JObj fs =>
      "{" +:+ String.concat ","
                (map (λ kv, match kv with (k, v) => quote k +:+ ":" +:+ text v end) fs)
          +:+ "}"
  end.

(** The string a path extraction returns: a JSON string gives its
    content, any other value its JSON text. *)
Definition extract (j : option json) (keys : list string) : option string :=
  match path j keys with
  | None => None
  | Some (JStr s) => Some s
  | Some v => Some (text v)
  end.

End Json.

(** [regexp_extract_all] with the pattern of [l1_arr] (three groups: a
    double quote, one or more characters other than a double quote, a double
    quote) and group index 2: the leftmost, non-overlapping matches, each
    giving the run between its quotes.  [run] is [None] while looking for an
    opening quote and [Some r] after one, [r] being the characters read
    since, latest first.  A quote right after an opening quote fails the
    match there and is itself tried as the next opening quote; an unclosed
    run at the end of the text matches nothing. *)
Fixpoint quoted_runs (run : option (list ascii)) (s : string) : list string :=
  match s with
  | EmptyString => []
  | String c s' =>
      if decide (c = Json.dquote) then
        match run with
        | None | Some [] => quoted_runs (Some []) s'
        | Some r => String.string_of_list_ascii (rev r) :: quoted_runs None s'
        end
      else
        match run with
        | None => quoted_runs None s'
        | Some r => quoted_runs (Some (c :: r)) s'
        end
  end.

Definition regexp_extract_all_quoted (str : option string) : option (list string) :=
  quoted_runs None <$> str.

(** A name the pattern gets back unchanged from a printed array: no quote,
    no backslash and no character below U+0020 in it, so that it is printed
    without any escape. *)
Definition plain (s : string) : Prop :=
  Forall (λ c, c ≠ Json.dquote ∧ c ≠ Json.backslash ∧
               (32 ≤ Ascii.nat_of_ascii c)%nat)
         (String.list_ascii_of_string s).

(** [explode]: one row per array element, no row for a NULL array. *)
Definition explode {A} (arr : option (list A)) : list A := default [] arr.

(** ** Lineage *)

(** A row of [l1], [l2] and [l3]. *)
Record LineageRow := {
  output_dataset : option string;
  input_depth : nat;
  input_dataset : string
}.

Global Instance LineageRow_eq_dec : EqDecision LineageRow.
Proof. solve_decision. Defined.

(** A row of [l1_arr]: a flow definition, its inputs as an array. *)
Definition FlowRow : Type := option string * option (list string).

Definition l1_raw (event_log_raw : list EventRecord) (latest_update_id : string)
  : list (option string * option string) :=
  (λ e, (Json.extract (details e) ["flow_definition"; "output_dataset"],
         Json.extract (details e) ["flow_definition"; "input_datasets"]))
    <$> filter (λ e, event_type e = "flow_definition" ∧
                     update_id (origin e) = Some latest_update_id) event_log_raw.

Definition l1_arr (raw : list (option string * option string)) : list FlowRow :=
  (λ r, (r.1, regexp_extract_all_quoted r.2)) <$> raw.

Definition l1 (arr : list FlowRow) : list LineageRow :=
  r ← arr; x ← explode r.2;
  [ {| output_dataset := r.1; input_depth := 1; input_dataset := x |} ].

(** [a LEFT JOIN b ON on]: every left row with each matching right row, or
    once with a NULL right side when nothing matches. *)
Definition left_join {A B} (on : A → B → Prop) `{!RelDecision on}
    (l : list A) (r : list B) : list (A * option B) :=
  a ← l;
  match filter (on a) r with
  | [] => [(a, None)]
  | ms => (λ b, (a, Some b)) <$> ms
  end.

(** The join condition of [l2] and [l3],
    [prev.input_dataset = nxt.output_dataset]; the comparison with a NULL
    [output_dataset] is never true. *)
Definition join_on (prev nxt : LineageRow) : Prop :=
  Some (input_dataset prev) = output_dataset nxt.

Global Instance join_on_dec : RelDecision join_on.
Proof. intros a b. unfold join_on. apply _. Defined.

(** The body shared by [l2] and [l3]:
    [SELECT prev.output_dataset, depth AS input_depth, nxt.input_dataset
     FROM prev LEFT JOIN l1 AS nxt ON prev.input_dataset = nxt.output_dataset
     WHERE nxt.input_dataset IS NOT NULL]. *)
Definition next_level (depth : nat) (prev edges : list LineageRow) : list LineageRow :=
  omap (λ p, nxt ← p.2;
             Some {| output_dataset := output_dataset p.1;
                     input_depth := depth;
                     input_dataset := input_dataset nxt |})
       (left_join join_on prev edges).

Definition l2 (arr : list FlowRow) : list LineageRow := next_level 2 (l1 arr) (l1 arr).
Definition l3 (arr : list FlowRow) : list LineageRow := next_level 3 (l2 arr) (l1 arr).

Definition collect_set (l : list string) : list string := remove_dups l.

(** One column of the PIVOT for the group [g]:
    [COLLECT_SET(input_dataset)] over the group's rows at depth [k], the
    empty array when there is none. *)
Definition column (rows : list LineageRow) (g : option string) (k : nat) : list string :=
  collect_set
    (input_dataset <$> filter (λ r, output_dataset r = g ∧ input_depth r = k) rows).

(** [PIVOT (COLLECT_SET(input_dataset) FOR input_depth IN (...))]: the
    remaining column [output_dataset] groups the rows (NULL is a group of
    its own), and each listed depth becomes a column. *)
Definition pivot (depths : list nat) (rows : list LineageRow)
  : list (option string * list (list string)) :=
  (λ g, (g, column rows g <$> depths)) <$> remove_dups (output_dataset <$> rows).

(** The lineage cell: [l1 UNION ALL l2 UNION ALL l3], pivoted into the
    columns [L1], [L2], [L3] (here the three elements of the second
    component). *)
Definition lineage_query (arr : list FlowRow) : list (option string * list (list string)) :=
  pivot [1; 2; 3]%nat (l1 arr ++ l2 arr ++ l3 arr).

(** *** The same query with [maxDepth] levels

    [l2] and [l3] repeat one body; [level] continues it: level 1 is [l1] and
    level [k+1] joins level [k] with [l1].  [lineage arr 3] is the notebook's
    query (lemma [lineage_query_depth3]). *)
Fixpoint level (arr : list FlowRow) (k : nat) : list LineageRow :=
  match k with
  | O => []
  | S k' =>
      match k' with
      | O => l1 arr
      | S _ => next_level k (level arr k') (l1 arr)
      end
  end.

(** [level 1 UNION ALL ... UNION ALL level maxDepth]. *)
Definition levels (arr : list FlowRow) (maxDepth : nat) : list LineageRow :=
  k ← seq 1 maxDepth; level arr k.

Definition lineage (arr : list FlowRow) (maxDepth : nat)
  : list (option string * list (list string)) :=
  pivot (seq 1 maxDepth) (levels arr maxDepth).

(** Reading the result for one dataset: the depth columns of the row whose
    [output_dataset] is [root]; [None] when the result has no such row. *)
Definition resolve (arr : list FlowRow) (root : string) (maxDepth : nat)
  : option (list (list string)) :=
  (λ hit, hit.2.2) <$> list_find (λ row, row.1 = Some root) (lineage arr maxDepth).

(** The datasets reported for [root] at depth [k] (columns count from 1):
    column [k] of its row, nothing when there is no row or no such column. *)
Definition depth_set (arr : list FlowRow) (root : string) (maxDepth k : nat)
  : list string :=
  match resolve arr root maxDepth, k with
  | Some cols, S i => default [] (cols !! i)
  | _, _ => []
  end.

(** *** Paths in the flow graph *)

(** [edge arr x o]: some flow definition with output [o] lists [x] among
    its inputs, the edge [x -> o]. *)
Definition edge (arr : list FlowRow) (x : string) (o : option string) : Prop :=
  ∃ ins, (o, Some ins) ∈ arr ∧ x ∈ ins.

(** [reach arr k x o]: [x] lies [k] edges upstream of [o]. *)
Inductive reach (arr : list FlowRow) : nat → string → option string → Prop :=
| reach_direct x o : edge arr x o → reach arr 1 x o
| reach_step k x y o :
    reach arr k y o → edge arr x (Some y) → reach arr (S k) x o.

(** The ancestor graph of [root] is at most [n] levels deep. *)
Definition depth_at_most (arr : list FlowRow) (root : string) (n : nat) : Prop :=
  ∀ k x, reach arr k x (Some root) → (k ≤ n)%nat.

(** The edge table of the first examples: B and C read A, D reads B and C. *)
Definition diamond : list FlowRow :=
  [ (Some "B", Some ["A"]); (Some "C", Some ["A"]); (Some "D", Some ["B"; "C"]) ].

(** D reads A directly and through B. *)
Definition shortcut : list FlowRow :=
  [ (Some "B", Some ["A"]); (Some "D", Some ["A"; "B"]) ].

(** A and B read each other. *)
Definition two_cycle : list FlowRow :=
  [ (Some "A", Some ["B"]); (Some "B", Some ["A"]) ].

(** ** Latest update id *)

Inductive PyException : Type :=
| AttributeError            (* attribute access on None *)
| IllegalArgumentException. (* a null value handed to spark.conf.set *)

Inductive PyResult (A : Type) : Type :=
| Returned (a : A)
| Raised (e : PyException).
Arguments Returned {A} a.
Arguments Raised {A} e.

(** [a] comes no later than [b] under [ORDER BY timestamp DESC]. *)
Definition ts_desc (a b : EventRecord) : Prop := timestamp b ≤ timestamp a.

Global Instance ts_desc_dec : RelDecision ts_desc.
Proof. intros a b. unfold ts_desc. apply _. Defined.

(** [SELECT origin.update_id FROM event_log_raw
     WHERE event_type = 'create_update' ORDER BY timestamp DESC LIMIT 1]. *)
Definition latest_update_rows (event_log_raw : list EventRecord) : list (option string) :=
  (λ e, update_id (origin e))
    <$> take 1 (merge_sort ts_desc
                  (filter (λ e, event_type e = "create_update") event_log_raw)).

(** [DataFrame.first()]: the first row, [None] for an empty result. *)
Definition first {A} (rows : list A) : option A := head rows.

(** [spark.sql(...).first().update_id]: the attribute of the first row;
    on an empty result [first()] is [None] and the attribute access raises. *)
Definition latest_update_id (event_log_raw : list EventRecord)
  : PyResult (option string) :=
  match first (latest_update_rows event_log_raw) with
  | Some row => Returned row
  | None => Raised AttributeError
  end.

(** ** Data quality metrics *)

Module Expectation.
(** An element of the [expectations] array under the schema of the
    query, every field nullable. *)
Record t := {
  name : option string;
  dataset : option string;
  passed_records : option Z;
  failed_records : option Z
}.
Definition null : t :=
  {| name := None; dataset := None; passed_records := None; failed_records := None |}.
End Expectation.

Module Metric.
(** A row of the data quality result. *)
Record t := {
  dataset : option string;
  expectation : option string;
  passing_records : option Z;
  failing_records : option Z
}.
End Metric.

(** [from_json(text, "array<struct<name: string, dataset: string,
    passed_records: int, failed_records: int>>")], read off the parse tree
    of the extracted value, as Spark 3.3 (the notebook's) does it.  Every
    occurrence of a field of the schema is converted and the last one stays:
    a string field takes any value (a non-string by its JSON text); an [int]
    field takes an integer within 32 bits; a missing or null field is NULL.
    Anything else is a malformed record and the whole result is NULL.  A
    single object is read as a one-element array.  A string leaf holds text
    that [from_json] would parse again; that second parse is not modelled
    and the leaf is read as NULL. *)
Module FromJson.

Definition int_min : Z := - 2 ^ 31.
Definition int_max : Z := 2 ^ 31 - 1.

(** The values of a key in an object, in the order written (a key may be
    repeated). *)
Definition occurrences (k : string) (fs : list (string * json)) : list json :=
  snd <$> filter (λ kv, kv.1 = k) fs.

Definition string_value (v : json) : option string :=
  match v with
  | JNull => None
  | JStr s => Some s
  | v => Some (Json.text v)
  end.

Definition string_field (k : string) (fs : list (string * json)) : option string :=
  last (occurrences k fs) ≫= string_value.

(** The outer [None] is a malformed value, [Some None] a NULL one. *)
Definition int_value (v : json) : option (option Z) :=
  match v with
  | JNull => Some None
  | JNum n => if decide (int_min ≤ n ≤ int_max) then Some (Some n) else None
  | _ => None
  end.

Definition int_field (k : string) (fs : list (string * json)) : option (option Z) :=
  vs ← mapM int_value (occurrences k fs);
  Some (default None (last vs)).

Definition expectation (j : json) : option Expectation.t :=
  match j with
  | JNull => Some Expectation.null
  | JObj fs =>
      p ← int_field "passed_records" fs;
      f ← int_field "failed_records" fs;
      Some {| Expectation.name := string_field "name" fs;
              Expectation.dataset := string_field "dataset" fs;
              Expectation.passed_records := p;
              Expectation.failed_records := f |}
  | _ => None
  end.

Definition expectations (j : option json) : option (list Expectation.t) :=
  match j with
  | Some (JArr elems) => mapM expectation elems
  | Some (JObj fs) => (λ x, [x]) <$> expectation (JObj fs)
  | _ => None
  end.

End FromJson.

(** The parsed [details :flow_progress :data_quality :expectations] of one
    event, NULL when the path is missing or the value is malformed. *)
Definition expectations_of (e : EventRecord) : option (list Expectation.t) :=
  FromJson.expectations
    (Json.path (details e) ["flow_progress"; "data_quality"; "expectations"]).

(** The inner SELECT of the data quality query: one [row_expectations] per
    array element of every [flow_progress] event of the update. *)
Definition row_expectations (event_log_raw : list EventRecord) (latest_update_id : string)
  : list Expectation.t :=
  e ← filter (λ e, event_type e = "flow_progress" ∧
                   update_id (origin e) = Some latest_update_id) event_log_raw;
  explode (expectations_of e).

(** A [bigint] after an addition that left the 64-bit range. *)
Definition wrap64 (z : Z) : Z := (z + 2 ^ 63) `mod` 2 ^ 64 - 2 ^ 63.

(** [SUM] over an [int] column: NULLs are skipped, the running total is a
    [bigint], and the sum of no value is NULL. *)
Definition sql_sum (vals : list (option Z)) : option Z :=
  foldl (λ acc v,
           match v, acc with
           | None, _ => acc
           | Some n, None => Some n
           | Some n, Some a => Some (wrap64 (a + n))
           end) None vals.

(** [GROUP BY row_expectations.dataset, row_expectations.name]. *)
Definition group_key (x : Expectation.t) : option string * option string :=
  (Expectation.dataset x, Expectation.name x).

Definition group (g : option string * option string) (rows : list Expectation.t)
  : list Expectation.t :=
  filter (λ x, group_key x = g) rows.

Definition data_quality_metrics (event_log_raw : list EventRecord) (latest_update_id : string)
  : list Metric.t :=
  let rows := row_expectations event_log_raw latest_update_id in
  (λ g, {| Metric.dataset := g.1;
           Metric.expectation := g.2;
           Metric.passing_records :=
             sql_sum (Expectation.passed_records <$> group g rows);
           Metric.failing_records :=
             sql_sum (Expectation.failed_records <$> group g rows) |})
    <$> remove_dups (group_key <$> rows).

(** The sum as the specification words it: the exact total of the values
    present, NULL when there is none. *)
Definition exact_sum (vals : list (option Z)) : option Z :=
  match omap id vals with
  | [] => None
  | n :: ns => Some (foldr Z.add 0 (n :: ns))
  end.

(** ** The notebook session *)

(** What the cells share: the temporary view and the Spark configuration. *)
Record Session := {
  event_log_raw : list EventRecord;
  conf : gmap string string
}.

(** [event_log.createOrReplaceTempView("event_log_raw")]. *)
Definition create_view (event_log : list EventRecord) (s : Session) : Session :=
  {| event_log_raw := event_log; conf := conf s |}.

(** The cell of [latest_update_id]: the query, then
    [spark.conf.set('latest_update.id', latest_update_id)], which refuses a
    null value.  An exception leaves the session as it was. *)
Definition set_latest_update_id (s : Session) : PyResult Session :=
  match latest_update_id (event_log_raw s) with
  | Raised e => Raised e
  | Returned None => Raised IllegalArgumentException
  | Returned (Some id) =>
      Returned {| event_log_raw := event_log_raw s;
                  conf := <["latest_update.id" := id]> (conf s) |}
  end.

(** The text that replaces [${latest_update.id}] in a SQL cell: the
    configured value, the empty text when the key is not set. *)
Definition substituted_update_id (s : Session) : string :=
  default "" (conf s !! "latest_update.id").

(** The SQL cells paste that text between single quotes.  The literal
    denotes the text itself as long as the text holds no single quote, no
    backslash and no dollar sign (a quote ends the literal, a backslash
    starts an escape, a dollar sign may start another reference); the cells
    below are the notebook's for such ids. *)
Definition literal_safe (id : string) : Prop :=
  Forall (λ c, c ≠ Ascii.ascii_of_nat 39 ∧ c ≠ Json.backslash ∧
               c ≠ Ascii.ascii_of_nat 36)
         (String.list_ascii_of_string id).

Definition lineage_cell (s : Session) : list (option string * list (list string)) :=
  lineage_query (l1_arr (l1_raw (event_log_raw s) (substituted_update_id s))).

Definition data_quality_cell (s : Session) : list Metric.t :=
  data_quality_metrics (event_log_raw s) (substituted_update_id s).

(** Running the cell of [latest_update_id] and then a SQL cell; the SQL
    cell is not reached when the first one raises. *)
Definition then_query {A} (query : Session → A) (s : Session) : PyResult A :=
  match set_latest_update_id s with
  | Returned s' => Returned (query s')
  | Raised e => Raised e
  end.

(** A nullable [int]: within 32 bits when present. *)
Definition in_int (v : option Z) : Prop :=
  ∀ n, v = Some n → FromJson.int_min ≤ n ≤ FromJson.int_max.

(** The group a result row stands for. *)
Definition metric_key (m : Metric.t) : option string * option string :=
  (Metric.dataset m, Metric.expectation m).

(** ** Example logs *)

Definition create_update_event (t : Z) (u : string) : EventRecord :=
  {| event_type := "create_update"; timestamp := t;
     origin := {| update_id := Some u |}; details := None |}.

Definition flow_progress_event (t : Z) (u : string) (d : option json) : EventRecord :=
  {| event_type := "flow_progress"; timestamp := t;
     origin := {| update_id := Some u |}; details := d |}.

Definition flow_definition_event (t : Z) (u : string) (out : string) (ins : list string)
  : EventRecord :=
  {| event_type := "flow_definition"; timestamp := t;
     origin := {| update_id := Some u |};
     details := Some (JObj [("flow_definition",
                            JObj [("output_dataset", JStr out);
                                  ("input_datasets", JArr (JStr <$> ins))])]) |}.

Definition expectation_report (name dataset : string) (passed failed : Z) : json :=
  JObj [("name", JStr name); ("dataset", JStr dataset);
        ("passed_records", JNum passed); ("failed_records", JNum failed)].

Definition progress_details (reports : list json) : json :=
  JObj [("flow_progress",
         JObj [("data_quality", JObj [("expectations", JArr reports)])])].

(** Three updates, the latest first in the log. *)
Definition three_updates : list EventRecord :=
  [ create_update_event 30 "u3"; create_update_event 10 "u1";
    create_update_event 20 "u2" ].

(** Two progress events of one update reporting on the same expectation. *)
Definition orders_log : list EventRecord :=
  [ flow_progress_event 1 "u"
      (Some (progress_details [expectation_report "valid_id" "orders" 10 2]));
    flow_progress_event 2 "u"
      (Some (progress_details [expectation_report "valid_id" "orders" 5 1])) ].

Definition orders_metric : Metric.t :=
  {| Metric.dataset := Some "orders"; Metric.expectation := Some "valid_id";
     Metric.passing_records := Some 15; Metric.failing_records := Some 3 |}.


(** Two updates of a pipeline whose flows changed between them; the
    session still holds the id of the first. *)
Definition two_updates_log : list EventRecord :=
  [ create_update_event 10 "u1";
    flow_definition_event 11 "u1" "D" ["B"];
    flow_progress_event 12 "u1"
      (Some (progress_details [expectation_report "valid_id" "orders" 10 2]));
    create_update_event 20 "u2";
    flow_definition_event 21 "u2" "D" ["C"];
    flow_progress_event 22 "u2"
      (Some (progress_details [expectation_report "valid_id" "orders" 5 1])) ].

Definition stale_session : Session :=
  {| event_log_raw := two_updates_log; conf := {["latest_update.id" := "u1"]} |}.

Definition fresh_session : Session :=
  {| event_log_raw := two_updates_log; conf := {["latest_update.id" := "u2"]} |}.

(** ** The join read as an inner join, and further examples *)

(** [a INNER JOIN b ON on]: every left row with each matching right row. *)
Definition inner_join {A B} (on : A → B → Prop) `{!RelDecision on}
    (l : list A) (r : list B) : list (A * B) :=
  a ← l; (λ b, (a, b)) <$> filter (on a) r.

(** A name as [l1_arr] can return it: not empty, no double quote in it. *)
Definition extractable (x : string) : Prop :=
  x ≠ "" ∧ Forall (λ c, c ≠ Json.dquote) (String.list_ascii_of_string x).

(** A report as the pipeline writes it into the [expectations] array. *)
Record Report := {
  report_name : string;
  report_dataset : string;
  report_passed : Z;
  report_failed : Z
}.

Definition report_json (r : Report) : json :=
  expectation_report (report_name r) (report_dataset r)
                     (report_passed r) (report_failed r).

(** The row [from_json] and [explode] make of a report. *)
Definition report_row (r : Report) : Expectation.t :=
  {| Expectation.name := Some (report_name r);
     Expectation.dataset := Some (report_dataset r);
     Expectation.passed_records := Some (report_passed r);
     Expectation.failed_records := Some (report_failed r) |}.

(** Both counts of the report fit the [int] of the schema. *)
Definition report_ok (r : Report) : Prop :=
  (FromJson.int_min ≤ report_passed r ≤ FromJson.int_max) ∧
  (FromJson.int_min ≤ report_failed r ≤ FromJson.int_max).

(** A [flow_progress] event carrying the given reports. *)
Definition report_event (u : string) (batch : Z * list Report) : EventRecord :=
  flow_progress_event batch.1 u (Some (progress_details (report_json <$> batch.2))).

(** The two reports on orders, one per event, as batches of reports. *)
Definition orders_reports : list (Z * list Report) :=
  [ (1, [ {| report_name := "valid_id"; report_dataset := "orders";
             report_passed := 10; report_failed := 2 |} ]);
    (2, [ {| report_name := "valid_id"; report_dataset := "orders";
             report_passed := 5; report_failed := 1 |} ]) ].


(** Adding two nullable counts, NULL counting as nothing. *)
Definition add_counts (a b : option Z) : option Z :=
  match a, b with
  | Some a, Some b => Some (a + b)
  | Some a, None => Some a
  | None, b => b
  end.

(** The rows for orders from each of the two reports alone. *)
Definition orders_part1 : Metric.t :=
  {| Metric.dataset := Some "orders"; Metric.expectation := Some "valid_id";
     Metric.passing_records := Some 10; Metric.failing_records := Some 2 |}.

Definition orders_part2 : Metric.t :=
  {| Metric.dataset := Some "orders"; Metric.expectation := Some "valid_id";
     Metric.passing_records := Some 5; Metric.failing_records := Some 1 |}.

(** * Properties *)

(** ** Lineage: membership lemmas *)

Section lineage_facts.
Context (arr : list FlowRow).

Lemma elem_of_l1 row :
  row ∈ l1 arr ↔
  input_depth row = 1%nat ∧ edge arr (input_dataset row) (output_dataset row).
Proof.
  unfold l1, edge. rewrite list_elem_of_bind. split.
  - intros ([o ins] & Hrow & Hin). simpl in Hrow.
    apply list_elem_of_bind in Hrow as (x & Hx & Hins).
    apply list_elem_of_singleton in Hx as ->. simpl.
    destruct ins as [ins|]; simpl in Hins; [|by apply elem_of_nil in Hins].
    split; [done|]. by exists ins.
  - intros (Hd & ins & Harr & Hx). exists (output_dataset row, Some ins).
    split; [|done]. simpl. apply list_elem_of_bind. exists (input_dataset row).
    split; [|done]. apply list_elem_of_singleton.
    destruct row as [o d x]; simpl in *. by subst.
Qed.

Lemma elem_of_left_join_Some {A B} (on : A → B → Prop) `{!RelDecision on}
    (l : list A) (r : list B) a b :
  (a, Some b) ∈ left_join on l r ↔ a ∈ l ∧ b ∈ r ∧ on a b.
Proof.
  unfold left_join. rewrite list_elem_of_bind. split.
  - intros (a' & Hin & Ha').
    destruct (filter (on a') r) as [|m ms] eqn:Hf.
    + apply list_elem_of_singleton in Hin. congruence.
    + apply list_elem_of_fmap in Hin as (b' & Heq & Hb'). simplify_eq.
      rewrite <- Hf in Hb'. apply list_elem_of_filter in Hb' as [? ?]. done.
  - intros (Ha & Hb & Hon). exists a. split; [|done].
    assert (Hf : b ∈ filter (on a) r) by (by apply list_elem_of_filter).
    destruct (filter (on a) r) as [|m ms]; [by apply elem_of_nil in Hf|].
    apply list_elem_of_fmap. by exists b.
Qed.

Lemma elem_of_next_level depth prev edges row :
  row ∈ next_level depth prev edges ↔
  input_depth row = depth ∧
  ∃ a b, a ∈ prev ∧ b ∈ edges ∧ join_on a b ∧
         output_dataset row = output_dataset a ∧
         input_dataset row = input_dataset b.
Proof.
  unfold next_level. rewrite list_elem_of_omap. split.
  - intros ([a [b|]] & Hin & Hsel); simpl in Hsel; [|done].
    apply elem_of_left_join_Some in Hin as (Ha & Hb & Hon).
    simplify_eq. simpl. split; [done|]. by exists a, b.
  - intros (Hd & a & b & Ha & Hb & Hon & Ho & Hi).
    exists (a, Some b). split; [by apply elem_of_left_join_Some|].
    simpl. f_equal. destruct row; simpl in *. by subst.
Qed.

Lemma elem_of_level k row :
  row ∈ level arr k ↔
  input_depth row = k ∧ reach arr k (input_dataset row) (output_dataset row).
Proof.
  revert row. induction k as [|k IH]; intros row.
  - simpl. split; [by intros ?%elem_of_nil|]. intros [_ H]. inversion H.
  - destruct k as [|k].
    + simpl. rewrite elem_of_l1. split.
      * intros [? ?]. split; [done|]. by constructor.
      * intros [? H]. split; [done|]. inversion H; subst; [done|].
        match goal with H' : reach _ 0 _ _ |- _ => inversion H' end.
    + change (level arr (S (S k)))
        with (next_level (S (S k)) (level arr (S k)) (l1 arr)).
      rewrite elem_of_next_level. split.
      * intros (Hd & a & b & Ha & Hb & Hon & Ho & Hi). split; [done|].
        apply IH in Ha as [_ Ha]. apply elem_of_l1 in Hb as [_ Hb].
        rewrite Ho, Hi. unfold join_on in Hon. rewrite <- Hon in Hb.
        by eapply reach_step.
      * intros [Hd H]. split; [done|]. inversion H as [|k' x y o Hr He]; subst.
        exists {| output_dataset := output_dataset row;
                  input_depth := S k; input_dataset := y |},
               {| output_dataset := Some y;
                  input_depth := 1; input_dataset := input_dataset row |}.
        split; [by apply IH|]. split; [by apply elem_of_l1|]. done.
Qed.

Lemma elem_of_levels d row :
  row ∈ levels arr d ↔
  (1 ≤ input_depth row ≤ d)%nat ∧
  reach arr (input_depth row) (input_dataset row) (output_dataset row).
Proof.
  unfold levels. rewrite list_elem_of_bind. split.
  - intros (k & Hrow & Hk). apply elem_of_seq in Hk.
    apply elem_of_level in Hrow as [<- ?]. split; [lia|done].
  - intros [Hk Hr]. exists (input_depth row). split.
    + by apply elem_of_level.
    + apply elem_of_seq. lia.
Qed.

End lineage_facts.

(** ** Lineage: the pivot and the row of one root *)

Section pivot_facts.

(** Looking a group up in a table built from its distinct keys. *)
Lemma find_group {K B} `{EqDecision K} (F : K → B) (ks : list K) (g : K) :
  (λ hit : nat * (K * B), hit.2.2)
    <$> list_find (λ row, row.1 = g) ((λ k, (k, F k)) <$> ks)
  = if decide (g ∈ ks) then Some (F g) else None.
Proof.
  induction ks as [|k ks IH]; [done|]. rewrite fmap_cons. cbn [list_find].
  cbn beta. cbn [fst].
  destruct (decide (k = g)) as [->|Hne]; simpl.
  - by rewrite decide_True by left.
  - rewrite <- option_fmap_compose.
    etrans; [|etrans; [exact IH|]].
    + by destruct (list_find _ _) as [[? [? ?]]|].
    + destruct (decide (g ∈ ks)) as [Hin|Hnin].
      * by rewrite decide_True by (by right).
      * rewrite decide_False; [done|].
        intros [?|?]%elem_of_cons; congruence.
Qed.

Lemma elem_of_column rows g k x :
  x ∈ column rows g k ↔
  {| output_dataset := g; input_depth := k; input_dataset := x |} ∈ rows.
Proof.
  unfold column, collect_set. rewrite elem_of_remove_dups, list_elem_of_fmap. split.
  - intros ([o d y] & -> & [[? ?] Hin]%list_elem_of_filter). simpl in *. by subst.
  - intros Hin. eexists. split; [|apply list_elem_of_filter; split; [|exact Hin]]; done.
Qed.

Lemma NoDup_column rows g k : NoDup (column rows g k).
Proof. apply NoDup_remove_dups. Qed.

Lemma pivot_keys_NoDup depths rows : NoDup (pivot depths rows).*1.
Proof.
  unfold pivot. rewrite <- list_fmap_compose.
  change (NoDup (id <$> remove_dups (output_dataset <$> rows))).
  rewrite list_fmap_id. apply NoDup_remove_dups.
Qed.

Lemma elem_of_pivot depths rows g cols :
  (g, cols) ∈ pivot depths rows ↔
  g ∈ output_dataset <$> rows ∧ cols = column rows g <$> depths.
Proof.
  unfold pivot. rewrite list_elem_of_fmap. setoid_rewrite elem_of_remove_dups.
  split.
  - intros (g' & [= -> ->] & Hin). done.
  - intros [Hin ->]. by exists g.
Qed.

End pivot_facts.

Section resolve_facts.
Context (arr : list FlowRow).

Lemma resolve_unfold root d :
  resolve arr root d =
  if decide (Some root ∈ output_dataset <$> levels arr d)
  then Some (column (levels arr d) (Some root) <$> seq 1 d)
  else None.
Proof.
  unfold resolve, lineage, pivot.
  rewrite (find_group (λ g, column (levels arr d) g <$> seq 1 d)).
  destruct (decide (Some root ∈ output_dataset <$> levels arr d)).
  - by rewrite decide_True by (by apply elem_of_remove_dups).
  - by rewrite decide_False by (by rewrite elem_of_remove_dups).
Qed.

(** A root has a row as soon as one level is asked for and it has a
    direct input. *)
Lemma has_row_iff root d :
  Some root ∈ output_dataset <$> levels arr (S d) ↔ ∃ x, edge arr x (Some root).
Proof.
  rewrite list_elem_of_fmap. split.
  - intros (row & Ho & Hrow). apply elem_of_levels in Hrow as [_ Hr].
    rewrite <- Ho in Hr. clear Ho.
    induction Hr as [x o He|k x y o Hr IH He]; [by exists x|done].
  - intros [x He].
    exists {| output_dataset := Some root; input_depth := 1; input_dataset := x |}.
    split; [done|]. apply elem_of_levels. simpl. split; [lia|]. by constructor.
Qed.

Lemma reach_has_edge k x o : reach arr k x o → ∃ y, edge arr y o.
Proof. induction 1 as [x o He|k x y o Hr IH He]; [by exists x|done]. Qed.

Lemma reach_pos k x o : reach arr k x o → (1 ≤ k)%nat.
Proof. destruct 1; lia. Qed.

Lemma elem_of_depth_set root d k x :
  x ∈ depth_set arr root d k ↔ (1 ≤ k ≤ d)%nat ∧ reach arr k x (Some root).
Proof.
  unfold depth_set. rewrite resolve_unfold.
  destruct (decide (Some root ∈ output_dataset <$> levels arr d)) as [Hrow|Hrow].
  - destruct k as [|i].
    { split; [by intros ?%elem_of_nil|]. intros [? _]. lia. }
    rewrite list_lookup_fmap.
    destruct (seq 1 d !! i) as [k|] eqn:Hk; simpl.
    + apply lookup_seq in Hk as [-> Hi].
      rewrite elem_of_column, elem_of_levels. simpl.
      split; [intros [? ?]|intros [? ?]]; (split; [lia|done]).
    + split; [by intros ?%elem_of_nil|]. intros [Hle _].
      assert (Hsome : seq 1 d !! i = Some (1 + i)%nat) by (apply lookup_seq; lia).
      congruence.
  - split; [by destruct k; intros ?%elem_of_nil|]. intros [Hk Hr].
    destruct Hrow. apply list_elem_of_fmap.
    exists {| output_dataset := Some root; input_depth := k; input_dataset := x |}.
    split; [done|]. by apply elem_of_levels.
Qed.

Lemma NoDup_depth_set root d k : NoDup (depth_set arr root d k).
Proof.
  unfold depth_set. rewrite resolve_unfold.
  destruct (decide _); [|destruct k; constructor].
  destruct k as [|i]; [constructor|].
  rewrite list_lookup_fmap. destruct (seq 1 d !! i); simpl; [|constructor].
  apply NoDup_column.
Qed.

Lemma resolve_length root d cols :
  resolve arr root d = Some cols → length cols = d.
Proof.
  rewrite resolve_unfold. destruct (decide _); [|done].
  intros [= <-]. by rewrite length_fmap, length_seq.
Qed.

(** Paths compose: [x] upstream of [y], [y] upstream of [o]. *)
Lemma reach_trans k p x y o :
  reach arr k y o → reach arr p x (Some y) → reach arr (k + p) x o.
Proof.
  intros Hy Hx. remember (Some y) as oy eqn:Hoy.
  induction Hx as [x oy He|p x z oy Hz IH He]; subst.
  - replace (k + 1)%nat with (S k) by lia. by eapply reach_step.
  - replace (k + S p)%nat with (S (k + p)) by lia.
    eapply reach_step; [by apply IH|done].
Qed.

End resolve_facts.

Lemma lineage_query_depth3 arr : lineage_query arr = lineage arr 3.
Proof.
  unfold lineage_query, lineage, levels, l3, l2. simpl.
  by rewrite app_nil_r.
Qed.

(** ** Lineage: from the event log to the edges *)

Lemma edge_of_event_log (log : list EventRecord) (uid : string) x o :
  edge (l1_arr (l1_raw log uid)) x o ↔
  ∃ e txt, e ∈ log ∧ event_type e = "flow_definition" ∧
           update_id (origin e) = Some uid ∧
           Json.extract (details e) ["flow_definition"; "output_dataset"] = o ∧
           Json.extract (details e) ["flow_definition"; "input_datasets"] = Some txt ∧
           x ∈ quoted_runs None txt.
Proof.
  unfold edge, l1_arr, l1_raw. split.
  - intros (ins & Hin & Hx).
    apply list_elem_of_fmap in Hin as ([o' txt'] & Heq & Hin). simpl in Heq.
    apply list_elem_of_fmap in Hin as (e & Hraw & He).
    apply list_elem_of_filter in He as [[Hty Hu] He].
    destruct txt' as [txt|]; simpl in Heq; [|congruence].
    exists e, txt. simplify_eq. done.
  - intros (e & txt & He & Hty & Hu & Ho & Hi & Hx).
    exists (quoted_runs None txt). split; [|done].
    apply list_elem_of_fmap. exists (o, Some txt). split; [done|].
    apply list_elem_of_fmap. exists e. rewrite Ho, Hi. split; [done|].
    by apply list_elem_of_filter.
Qed.

(** The pattern recovers the names of a printed array of names, as long as
    no name is empty or holds a quote or a backslash. *)
Section regexp_roundtrip.

Lemma escape_char_plain c :
  c ≠ Json.dquote → c ≠ Json.backslash → (32 ≤ Ascii.nat_of_ascii c)%nat →
  Json.escape_char c = String c EmptyString.
Proof.
  intros Hq Hb Hc. unfold Json.escape_char.
  rewrite (decide_False (P := c = Json.dquote)) by done.
  rewrite (decide_False (P := c = Json.backslash)) by done.
  repeat (rewrite decide_False by lia). done.
Qed.

Lemma escape_plain s : plain s → Json.escape s = s.
Proof.
  unfold plain. induction s as [|c s IH]; simpl; [done|].
  intros [(? & ? & ?) ?]%Forall_cons.
  rewrite escape_char_plain by done. rewrite IH by done. done.
Qed.

Lemma quoted_runs_inside s (r : list ascii) rest :
  plain s → (r ++ String.list_ascii_of_string s)%list ≠ [] →
  quoted_runs (Some (rev r)) (s +:+ String Json.dquote rest) =
  String.string_of_list_ascii (r ++ String.list_ascii_of_string s)%list
    :: quoted_runs None rest.
Proof.
  unfold plain. revert r. induction s as [|c s IH]; simpl; intros r Hs Hne.
  - rewrite app_nil_r in *.
    destruct (rev r) as [|a r'] eqn:Hr.
    + destruct Hne. by rewrite <- (rev_involutive r), Hr.
    + rewrite <- Hr, rev_involutive. done.
  - apply Forall_cons in Hs as [(Hq & _ & _) Hs].
    rewrite decide_False by done.
    replace (c :: rev r) with (rev (r ++ [c])) by (by rewrite rev_app_distr).
    rewrite IH; [|done|by destruct r].
    by rewrite <- app_assoc.
Qed.

Lemma string_app_assoc (a b c : string) : (a +:+ b) +:+ c = a +:+ (b +:+ c).
Proof.
  induction a as [|x a IH]; [done|].
  change ((String x a +:+ b) +:+ c) with (String x ((a +:+ b) +:+ c)).
  by rewrite IH.
Qed.

Lemma quoted_runs_quote s rest :
  plain s → s ≠ "" →
  quoted_runs None (Json.quote s +:+ rest) = s :: quoted_runs None rest.
Proof.
  intros Hs Hne. unfold Json.quote. rewrite escape_plain by done. simpl.
  rewrite string_app_assoc. simpl.
  etrans; [apply (quoted_runs_inside s [] rest Hs)|].
  - simpl. destruct s; [done|discriminate].
  - simpl. by rewrite String.string_of_list_ascii_of_string.
Qed.

Lemma quoted_runs_skip c s :
  c ≠ Json.dquote → quoted_runs None (String c s) = quoted_runs None s.
Proof. intros Hc. cbn [quoted_runs]. by rewrite decide_False. Qed.

Lemma quoted_runs_names names rest :
  Forall (λ s, plain s ∧ s ≠ "") names →
  (∀ c rest', rest = String c rest' → c ≠ Json.dquote) →
  quoted_runs None (String.concat "," (map Json.text (JStr <$> names)) +:+ rest)
  = (names ++ quoted_runs None rest)%list.
Proof.
  induction 1 as [|s names [Hs Hne] Hall IH]; intros Hrest; [done|].
  rewrite fmap_cons. cbn [map Json.text].
  destruct names as [|s' names].
  - simpl String.concat. by rewrite quoted_runs_quote.
  - change (String.concat "," (Json.quote s :: map Json.text (JStr <$> s' :: names)))
      with (Json.quote s +:+ "," +:+ String.concat "," (map Json.text (JStr <$> s' :: names))).
    rewrite !string_app_assoc, quoted_runs_quote by done.
    change ("," +:+ ?x) with (String "," x).
    rewrite quoted_runs_skip by done.
    by rewrite IH.
Qed.

Lemma quoted_runs_array names :
  Forall (λ s, plain s ∧ s ≠ "") names →
  quoted_runs None (Json.text (JArr (JStr <$> names))) = names.
Proof.
  intros Hall. cbn [Json.text].
  change ("[" +:+ ?x) with (String "[" x).
  rewrite quoted_runs_skip by done.
  rewrite quoted_runs_names; [|done|].
  - rewrite quoted_runs_skip by done. by rewrite app_nil_r.
  - intros c rest' [= <- <-]. done.
Qed.

Lemma regexp_extract_all_names names :
  Forall (λ s, plain s ∧ s ≠ "") names →
  regexp_extract_all_quoted (Some (Json.text (JArr (JStr <$> names)))) = Some names.
Proof.
  intros Hall. unfold regexp_extract_all_quoted.
  cbn [fmap option_fmap option_map]. f_equal. by apply quoted_runs_array.
Qed.

End regexp_roundtrip.

(** ** Lineage: the claims *)

Section lineage_claims_support.
Context (arr : list FlowRow).

Lemma resolve_Some_iff root d cols :
  resolve arr root d = Some cols ↔ (Some root, cols) ∈ lineage arr d.
Proof.
  rewrite resolve_unfold. unfold lineage. rewrite elem_of_pivot.
  destruct (decide _) as [Hin|Hnin]; split.
  - intros [= <-]. done.
  - intros [_ ->]. done.
  - done.
  - intros [? _]. done.
Qed.

Lemma resolve_None_iff root d :
  resolve arr root (S d) = None ↔ ∀ x, ¬ edge arr x (Some root).
Proof.
  rewrite resolve_unfold.
  destruct (decide _) as [Hin|Hnin]; split; try done.
  - intros Hno. apply has_row_iff in Hin as [x He]. by destruct (Hno x).
  - intros _ x He. apply Hnin, has_row_iff. by exists x.
Qed.

Lemma depth_set_nil root d k :
  depth_set arr root d k = [] ↔
  ∀ x, (1 ≤ k ≤ d)%nat → ¬ reach arr k x (Some root).
Proof.
  split.
  - intros Hnil x Hk Hr.
    assert (Hx : x ∈ depth_set arr root d k) by (by apply elem_of_depth_set).
    rewrite Hnil in Hx. by apply elem_of_nil in Hx.
  - intros Hno. apply elem_of_nil_inv. intros x [Hk Hr]%elem_of_depth_set.
    by apply (Hno x).
Qed.

(** A path of length [k'] starts with a path of every shorter length. *)
Lemma reach_prefix k k' x o :
  reach arr k' x o → (1 ≤ k ≤ k')%nat → ∃ y, reach arr k y o.
Proof.
  induction 1 as [x o He|k' x y o Hr IH He]; intros Hk.
  - assert (k = 1)%nat as -> by lia. exists x. by constructor.
  - destruct (decide (k = S k')) as [->|Hne].
    + exists x. by eapply reach_step.
    + apply IH. lia.
Qed.

(** The depth of a root can be read off the first empty level. *)
Lemma depth_at_most_of_empty_level root n :
  depth_set arr root (S n) (S n) = [] → depth_at_most arr root n.
Proof.
  intros Hnil k x Hr. destruct (decide (k ≤ n)%nat) as [|Hgt]; [done|].
  destruct (reach_prefix (S n) k x (Some root) Hr) as [y Hy]; [lia|].
  eapply depth_set_nil in Hnil; [by destruct Hnil|lia].
Qed.

Lemma depth_set_inputs root d k x :
  x ∈ depth_set arr root d k → x ∈ input_dataset <$> l1 arr.
Proof.
  intros [_ Hr]%elem_of_depth_set.
  assert (∃ o, edge arr x o) as [o He] by (destruct Hr; eauto).
  apply list_elem_of_fmap.
  exists {| output_dataset := o; input_depth := 1; input_dataset := x |}.
  split; [done|]. by apply elem_of_l1.
Qed.

End lineage_claims_support.

Lemma extract_string j keys v :
  Json.path j keys = Some (JStr v) → Json.extract j keys = Some v.
Proof. unfold Json.extract. by intros ->. Qed.

Lemma extract_array j keys elems :
  Json.path j keys = Some (JArr elems) →
  Json.extract j keys = Some (Json.text (JArr elems)).
Proof. unfold Json.extract. by intros ->. Qed.

(** A [flow_definition] event of the update whose [input_datasets] is an
    array of plain, non-empty names contributes each of them as an edge. *)
Lemma edge_of_flow_definition (log : list EventRecord) (uid root : string)
    (names : list string) (e : EventRecord) (x : string) :
  e ∈ log → event_type e = "flow_definition" → update_id (origin e) = Some uid →
  Json.path (details e) ["flow_definition"; "output_dataset"] = Some (JStr root) →
  Json.path (details e) ["flow_definition"; "input_datasets"]
    = Some (JArr (JStr <$> names)) →
  Forall (λ s, plain s ∧ s ≠ "") names → x ∈ names →
  edge (l1_arr (l1_raw log uid)) x (Some root).
Proof.
  intros He Hty Hu Hout Hin Hnames Hx. apply edge_of_event_log.
  exists e, (Json.text (JArr (JStr <$> names))).
  split; [done|]. split; [done|]. split; [done|].
  split; [by apply extract_string|]. split; [by apply extract_array|].
  by rewrite quoted_runs_array.
Qed.

(** C1. With one level or more asked for, the depth-1 column of a root is
    exactly the set of its direct inputs: [x] is in it if and only if some
    flow definition with that output lists [x], and no name is listed
    twice.  Read from the event log, these are the names the pattern
    extracts from [input_datasets] of the [flow_definition] events of the
    update whose [output_dataset] is the root, and they are the names of
    that array itself when these are not empty and hold no quote, backslash
    or character below U+0020; in the notebook's
    own result the row of the root has the three columns [L1], [L2], [L3]
    and [L1] is that set. *)
Theorem resolve_depth1_direct_inputs :
  (∀ (arr : list FlowRow) (root : string) (d : nat) (x : string),
     x ∈ depth_set arr root (S d) 1 ↔ edge arr x (Some root)) ∧
  (∀ (arr : list FlowRow) (root : string) (d : nat),
     NoDup (depth_set arr root (S d) 1)) ∧
  (∀ (arr : list FlowRow) (root : string) (cols : list (list string)),
     (Some root, cols) ∈ lineage_query arr →
     ∃ L1 L2 L3, cols = [L1; L2; L3] ∧ NoDup L1 ∧
                 ∀ x, x ∈ L1 ↔ edge arr x (Some root)) ∧
  (∀ (log : list EventRecord) (uid root : string) (d : nat) (x : string),
     x ∈ depth_set (l1_arr (l1_raw log uid)) root (S d) 1 ↔
     ∃ e txt, e ∈ log ∧ event_type e = "flow_definition" ∧
              update_id (origin e) = Some uid ∧
              Json.extract (details e) ["flow_definition"; "output_dataset"] = Some root ∧
              Json.extract (details e) ["flow_definition"; "input_datasets"] = Some txt ∧
              x ∈ quoted_runs None txt) ∧
  (∀ (log : list EventRecord) (uid root : string) (names : list string)
     (e : EventRecord) (d : nat) (x : string),
     e ∈ log → event_type e = "flow_definition" → update_id (origin e) = Some uid →
     Json.path (details e) ["flow_definition"; "output_dataset"] = Some (JStr root) →
     Json.path (details e) ["flow_definition"; "input_datasets"]
       = Some (JArr (JStr <$> names)) →
     Forall (λ s, plain s ∧ s ≠ "") names → x ∈ names →
     x ∈ depth_set (l1_arr (l1_raw log uid)) root (S d) 1).
Proof.
  assert (Hdirect : ∀ arr root d x,
            x ∈ depth_set arr root (S d) 1 ↔ edge arr x (Some root)).
  { intros arr root d x. rewrite elem_of_depth_set. split.
    - intros [_ Hr]. inversion Hr as [| k ? ? ? Hr' ?]; subst; [done|]. inversion Hr'.
    - intros He. split; [lia|]. by constructor. }
  split; [exact Hdirect|]. split; [intros; apply NoDup_depth_set|].
  split; [|split].
  - intros arr root cols Hrow. rewrite lineage_query_depth3 in Hrow.
    pose proof Hrow as Hres%resolve_Some_iff.
    unfold lineage in Hrow. apply elem_of_pivot in Hrow as [_ ->].
    eexists _, _, _. split; [done|]. split; [apply NoDup_column|].
    intros x. rewrite <- (Hdirect arr root 2%nat x).
    unfold depth_set. rewrite Hres. done.
  - intros log uid root d x. by rewrite Hdirect, edge_of_event_log.
  - intros log uid root names e d x He Hty Hu Hout Hin Hnames Hx.
    apply Hdirect. by eapply edge_of_flow_definition.
Qed.

(** C1, on an instance: the direct inputs of D in the diamond, and the
    input C of D read from the second update of the example log. *)
Lemma resolve_depth1_direct_inputs_witness :
  ((Some "D", [["B"; "C"]; ["A"]; []]) ∈ lineage_query diamond ∧
   ∃ L1 L2 L3, [["B"; "C"]; ["A"]; []] = [L1; L2; L3] ∧ NoDup L1 ∧
               ∀ x, x ∈ L1 ↔ edge diamond x (Some "D")) ∧
  (flow_definition_event 21 "u2" "D" ["C"] ∈ two_updates_log ∧
   Forall (λ s, plain s ∧ s ≠ "") ["C"] ∧
   "C" ∈ depth_set (l1_arr (l1_raw two_updates_log "u2")) "D" 3 1).
Proof.
  assert (H : (Some "D", [["B"; "C"]; ["A"]; []]) ∈ lineage_query diamond).
  { vm_compute. do 2 right. left. }
  assert (He : flow_definition_event 21 "u2" "D" ["C"] ∈ two_updates_log).
  { unfold two_updates_log. do 4 right. left. }
  assert (Hnames : Forall (λ s, plain s ∧ s ≠ "") ["C"]).
  { repeat constructor; discriminate. }
  split.
  - split; [exact H|].
    exact (proj1 (proj2 (proj2 resolve_depth1_direct_inputs)) diamond "D" _ H).
  - split; [exact He|]. split; [exact Hnames|].
    apply (proj2 (proj2 (proj2 (proj2 resolve_depth1_direct_inputs)))
             two_updates_log "u2" "D" ["C"]
             (flow_definition_event 21 "u2" "D" ["C"]) 2%nat "C");
      [exact He|reflexivity|reflexivity|reflexivity|reflexivity|exact Hnames|left].
Defined.


(** C3. Beyond the depth of the ancestor graph every level is empty: when
    no dataset lies more than [n] edges upstream of the root and more than
    [n] levels are asked for, each level past [n] reports nothing, the row
    of the root (when it has one) still has all its columns and those past
    [n] are the empty array; and once a level is empty every later one is. *)
Theorem resolve_empty_beyond_depth (arr : list FlowRow) (root : string) (n d : nat) :
  depth_at_most arr root n → (n < d)%nat →
  (∀ k, (n < k)%nat → depth_set arr root d k = []) ∧
  (∀ cols, resolve arr root d = Some cols →
           length cols = d ∧ ∀ i, (n ≤ i < d)%nat → cols !! i = Some []) ∧
  (∀ k k', (1 ≤ k ≤ k')%nat →
           depth_set arr root d k = [] → depth_set arr root d k' = []).
Proof.
  intros Hdepth Hnd.
  assert (Hbeyond : ∀ k, (n < k)%nat → depth_set arr root d k = []).
  { intros k Hk. apply depth_set_nil. intros x _ Hr. apply Hdepth in Hr. lia. }
  split; [exact Hbeyond|]. split.
  - intros cols Hres. pose proof (resolve_length _ _ _ _ Hres) as Hlen.
    split; [done|]. intros i Hi.
    specialize (Hbeyond (S i) ltac:(lia)). unfold depth_set in Hbeyond.
    rewrite Hres in Hbeyond.
    destruct (cols !! i) as [col|] eqn:Hcol; simpl in Hbeyond; [by subst|].
    apply lookup_ge_None in Hcol. lia.
  - intros k k' Hk Hnil. apply depth_set_nil. intros x Hk' Hr.
    destruct (reach_prefix arr k k' x (Some root) Hr Hk) as [y Hy].
    eapply depth_set_nil in Hnil; [by destruct Hnil|lia].
Qed.

(** C3, on an instance: the diamond seen from D is two levels deep; five
    levels are asked for. *)
Lemma resolve_empty_beyond_depth_witness :
  depth_at_most diamond "D" 2 ∧ (2 < 5)%nat ∧
  (∀ k, (2 < k)%nat → depth_set diamond "D" 5 k = []) ∧
  (∀ cols, resolve diamond "D" 5 = Some cols →
           length cols = 5%nat ∧ ∀ i, (2 ≤ i < 5)%nat → cols !! i = Some []) ∧
  (∀ k k', (1 ≤ k ≤ k')%nat →
           depth_set diamond "D" 5 k = [] → depth_set diamond "D" 5 k' = []).
Proof.
  assert (Hdepth : depth_at_most diamond "D" 2).
  { apply depth_at_most_of_empty_level. vm_compute. reflexivity. }
  assert (Hlt : (2 < 5)%nat) by lia.
  split; [exact Hdepth|]. split; [exact Hlt|].
  exact (resolve_empty_beyond_depth diamond "D" 2 5 Hdepth Hlt).
Defined.

(** C7. A root that is the output of no edge is not an error: the result
    simply has no row for it, so no dataset is reported for it at any
    depth, whatever the number of levels. *)
Theorem resolve_missing_root_empty (arr : list FlowRow) (root : string) (d : nat) :
  (∀ x, ¬ edge arr x (Some root)) →
  resolve arr root d = None ∧
  (∀ cols, (Some root, cols) ∉ lineage arr d) ∧
  (∀ cols, (Some root, cols) ∉ lineage_query arr) ∧
  (∀ k, depth_set arr root d k = []).
Proof.
  intros Hno.
  assert (Hnone : ∀ d', resolve arr root d' = None).
  { intros [|d']; [by vm_compute|]. by apply resolve_None_iff. }
  split; [done|]. split; [|split].
  - intros cols Hin%resolve_Some_iff. by rewrite Hnone in Hin.
  - intros cols Hin. rewrite lineage_query_depth3 in Hin.
    apply resolve_Some_iff in Hin. by rewrite Hnone in Hin.
  - intros k. unfold depth_set. by rewrite Hnone.
Qed.

(** C7, on an instance: A is read in the diamond but is the output of no
    flow. *)
Lemma resolve_missing_root_empty_witness :
  (∀ x, ¬ edge diamond x (Some "A")) ∧
  resolve diamond "A" 3 = None ∧
  (∀ cols, (Some "A", cols) ∉ lineage diamond 3) ∧
  (∀ cols, (Some "A", cols) ∉ lineage_query diamond) ∧
  (∀ k, depth_set diamond "A" 3 k = []).
Proof.
  assert (Hno : ∀ x, ¬ edge diamond x (Some "A")).
  { apply (resolve_None_iff diamond "A" 0). vm_compute. reflexivity. }
  split; [exact Hno|].
  exact (resolve_missing_root_empty diamond "A" 3 Hno).
Defined.

(** C8. The query is a total function of the edge table and the number of
    levels, cycle or not: it yields no row for the root or a row of exactly
    [d] columns, and no column is longer than the edge table.  On a cycle a
    dataset comes back: if [x] is [k] edges upstream of the root and [p]
    edges upstream of itself, it is at depth [k + p] as well.  With A and B
    reading each other, the five levels of A alternate B, A, B, A, B. *)
Theorem resolve_total_with_cycles :
  (∀ (arr : list FlowRow) (root : string) (d : nat),
     resolve arr root d = None ∨
     ∃ cols, resolve arr root d = Some cols ∧ length cols = d) ∧
  (∀ (arr : list FlowRow) (root : string) (d k : nat),
     (length (depth_set arr root d k) ≤ length (l1 arr))%nat) ∧
  (∀ (arr : list FlowRow) (root : string) (d k p : nat) (x : string),
     reach arr k x (Some root) → reach arr p x (Some x) → (k + p ≤ d)%nat →
     x ∈ depth_set arr root d (k + p)) ∧
  resolve two_cycle "A" 5 = Some [["B"]; ["A"]; ["B"]; ["A"]; ["B"]].
Proof.
  split; [|split; [|split]].
  - intros arr root d. destruct (resolve arr root d) as [cols|] eqn:Hres; [|by left].
    right. exists cols. split; [done|]. by eapply resolve_length.
  - intros arr root d k.
    rewrite <- (length_fmap input_dataset (l1 arr)).
    apply submseteq_length, NoDup_submseteq; [apply NoDup_depth_set|].
    intros x. apply depth_set_inputs.
  - intros arr root d k p x Hk Hp Hle. apply elem_of_depth_set. split.
    + apply reach_pos in Hk. lia.
    + by eapply reach_trans.
  - by vm_compute.
Qed.

(** C8, on an instance: B is one edge upstream of A and two edges upstream
    of itself, so it is at depth 3 of A. *)
Lemma resolve_total_with_cycles_witness :
  reach two_cycle 1 "B" (Some "A") ∧ reach two_cycle 2 "B" (Some "B") ∧
  (1 + 2 ≤ 5)%nat ∧ "B" ∈ depth_set two_cycle "A" 5 (1 + 2).
Proof.
  assert (H1 : reach two_cycle 1 "B" (Some "A")).
  { apply (elem_of_depth_set two_cycle "A" 1 1 "B"). vm_compute. left. }
  assert (H2 : reach two_cycle 2 "B" (Some "B")).
  { apply (elem_of_depth_set two_cycle "B" 2 2 "B"). vm_compute. left. }
  assert (Hle : (1 + 2 ≤ 5)%nat) by lia.
  split; [exact H1|]. split; [exact H2|]. split; [exact Hle|].
  exact (proj1 (proj2 (proj2 resolve_total_with_cycles))
           two_cycle "A" 5%nat 1%nat 2%nat "B" H1 H2 Hle).
Defined.

(** C10. Inside one depth level a dataset is listed once: every column is
    duplicate-free, in the notebook's result too.  In the diamond the union
    holds the row (D, 2, A) twice, once through B and once through C, and
    the [L2] column of D holds A once; across levels nothing is removed (A is
    in [L1] and in [L2] of D when D reads it directly and through B). *)
Theorem depth_level_duplicate_free :
  (∀ (arr : list FlowRow) (root : string) (d k : nat),
     NoDup (depth_set arr root d k)) ∧
  (∀ (arr : list FlowRow) (g : option string) (cols : list (list string)),
     (g, cols) ∈ lineage_query arr → Forall NoDup cols) ∧
  filter (λ r, output_dataset r = Some "D") (l2 diamond) =
    [ {| output_dataset := Some "D"; input_depth := 2; input_dataset := "A" |};
      {| output_dataset := Some "D"; input_depth := 2; input_dataset := "A" |} ] ∧
  depth_set diamond "D" 3 2 = ["A"] ∧
  depth_set shortcut "D" 3 1 = ["A"; "B"] ∧
  depth_set shortcut "D" 3 2 = ["A"].
Proof.
  split; [intros; apply NoDup_depth_set|]. split.
  - intros arr g cols Hin. unfold lineage_query in Hin.
    apply elem_of_pivot in Hin as [_ ->].
    apply Forall_fmap, Forall_forall. intros k _. apply NoDup_column.
  - repeat split; by vm_compute.
Qed.

(** ** Latest update id *)

Global Instance ts_desc_total : Total ts_desc.
Proof. intros a b. unfold ts_desc. lia. Qed.

Global Instance ts_desc_trans : Transitive ts_desc.
Proof. intros a b c. unfold ts_desc. lia. Qed.

(** What [ORDER BY timestamp DESC LIMIT 1] and [first()] leave: nothing
    when no event is a [create_update], else one of them that no other is
    later than. *)
Lemma latest_update_id_cases (log : list EventRecord) :
  ((∀ e, e ∈ log → event_type e ≠ "create_update") ∧
   latest_update_id log = Raised AttributeError) ∨
  (∃ e, e ∈ log ∧ event_type e = "create_update" ∧
        (∀ e', e' ∈ log → event_type e' = "create_update" →
               timestamp e' ≤ timestamp e) ∧
        latest_update_id log = Returned (update_id (origin e))).
Proof.
  unfold latest_update_id, latest_update_rows, first.
  set (cs := filter (λ e, event_type e = "create_update") log).
  pose proof (merge_sort_Permutation ts_desc cs) as Hperm.
  pose proof (StronglySorted_merge_sort ts_desc cs) as Hsorted.
  destruct (merge_sort ts_desc cs) as [|e rest].
  - left. apply Permutation_nil_l in Hperm. split; [|done].
    intros e He Hty. assert (Hin : e ∈ cs) by (by apply list_elem_of_filter).
    rewrite <- Hperm in Hin. by apply elem_of_nil in Hin.
  - right. exists e.
    assert (Hin : e ∈ cs) by (rewrite <- Hperm; left).
    apply list_elem_of_filter in Hin as [Hty Hin].
    split; [done|]. split; [done|]. split; [|done].
    intros e' He' Hty'.
    assert (Hin' : e' ∈ e :: rest).
    { rewrite Hperm. by apply list_elem_of_filter. }
    apply elem_of_cons in Hin' as [->|Hrest]; [lia|].
    apply StronglySorted_inv in Hsorted as [_ Hall].
    rewrite Forall_forall in Hall. by apply Hall.
Qed.

(** C4. With a [create_update] event in the log the cell returns the
    [origin.update_id] of a [create_update] event that none is later than,
    and of the single latest one when there is one; with none, [first()] is
    [None] and reading [update_id] off it raises (Python's AttributeError
    is the failure the specification calls NotFoundError). *)
Theorem latest_update_id_spec (log : list EventRecord) :
  ((∃ e, e ∈ log ∧ event_type e = "create_update") →
   ∃ e, e ∈ log ∧ event_type e = "create_update" ∧
        (∀ e', e' ∈ log → event_type e' = "create_update" →
               timestamp e' ≤ timestamp e) ∧
        latest_update_id log = Returned (update_id (origin e))) ∧
  (∀ e, e ∈ log → event_type e = "create_update" →
        (∀ e', e' ∈ log → event_type e' = "create_update" → e' ≠ e →
               timestamp e' < timestamp e) →
        latest_update_id log = Returned (update_id (origin e))) ∧
  ((∀ e, e ∈ log → event_type e ≠ "create_update") →
   latest_update_id log = Raised AttributeError).
Proof.
  destruct (latest_update_id_cases log)
    as [[Hnone Hraise]|(e & He & Hty & Hmax & Hret)].
  - split; [|split].
    + intros (e & He & Hty). by destruct (Hnone e He).
    + intros e He Hty _. by destruct (Hnone e He).
    + done.
  - split; [|split].
    + intros _. by exists e.
    + intros e0 He0 Hty0 Hstrict. rewrite Hret.
      destruct (decide (update_id (origin e) = update_id (origin e0)))
        as [->|Hne]; [done|].
      assert (Hne' : e ≠ e0) by congruence.
      specialize (Hstrict e He Hty Hne'). specialize (Hmax e0 He0 Hty0). lia.
    + intros Hnone. by destruct (Hnone e He).
Qed.


(** C4, on an instance: three [create_update] events with distinct
    timestamps, the latest of them first in the log; and the empty log. *)
Lemma latest_update_id_spec_witness :
  (∃ e, e ∈ three_updates ∧ event_type e = "create_update") ∧
  (∃ e, e ∈ three_updates ∧ event_type e = "create_update" ∧
        (∀ e', e' ∈ three_updates → event_type e' = "create_update" →
               timestamp e' ≤ timestamp e) ∧
        latest_update_id three_updates = Returned (update_id (origin e))) ∧
  latest_update_id three_updates = Returned (Some "u3") ∧
  latest_update_id [] = Raised AttributeError.
Proof.
  assert (Hex : ∃ e, e ∈ three_updates ∧ event_type e = "create_update").
  { exists (create_update_event 30 "u3"). split; [left|reflexivity]. }
  split; [exact Hex|]. split; [|split].
  - exact (proj1 (latest_update_id_spec three_updates) Hex).
  - apply (proj1 (proj2 (latest_update_id_spec three_updates))
             (create_update_event 30 "u3")).
    + left.
    + reflexivity.
    + intros e' He' _ Hne.
      apply elem_of_cons in He' as [->|He']; [done|].
      apply elem_of_cons in He' as [->|He']; [simpl; lia|].
      apply list_elem_of_singleton in He' as ->. simpl. lia.
  - apply (proj2 (proj2 (latest_update_id_spec []))).
    intros e He. by apply elem_of_nil in He.
Defined.

(** ** Data quality metrics *)

Section sum_facts.

Lemma wrap64_small z : - 2 ^ 63 ≤ z < 2 ^ 63 → wrap64 z = z.
Proof. intros Hz. unfold wrap64. rewrite Z.mod_small by lia. lia. Qed.

(** The running [bigint] total of fewer than 2^32 [int] values never
    leaves the 64-bit range, so [SUM] is the exact sum. *)
Lemma sql_sum_exact_bound vals :
  Forall in_int vals → Z.of_nat (length vals) < 2 ^ 32 →
  sql_sum vals = exact_sum vals ∧
  Z.abs (foldr Z.add 0 (omap id vals)) ≤ Z.of_nat (length vals) * 2 ^ 31.
Proof.
  unfold sql_sum, exact_sum.
  induction vals as [|v vals IH] using rev_ind; intros Hall Hlen.
  - simpl. split; [done|lia].
  - apply Forall_app in Hall as [Hall Hv]. apply Forall_cons in Hv as [Hv _].
    rewrite length_app in *. simpl in Hlen |- *.
    destruct IH as [IHsum IHabs]; [done|lia|].
    rewrite foldl_app, omap_app. simpl foldl. rewrite IHsum.
    assert (Htot : ∀ l k, foldr Z.add 0 (l ++ k) = foldr Z.add 0 l + foldr Z.add 0 k).
    { intros l k. induction l as [|a l IHl]; simpl; lia. }
    rewrite Htot.
    destruct v as [n|]; simpl.
    + specialize (Hv n eq_refl). unfold FromJson.int_min, FromJson.int_max in Hv.
      destruct (omap id vals) as [|m ms] eqn:Hpresent; simpl in *.
      * split; [f_equal; lia|lia].
      * split; [|lia]. f_equal. rewrite Htot. simpl.
        rewrite wrap64_small; lia.
    + rewrite app_nil_r. split; [done|lia].
Qed.

Lemma sql_sum_exact vals :
  Forall in_int vals → Z.of_nat (length vals) < 2 ^ 32 →
  sql_sum vals = exact_sum vals.
Proof. intros. by apply sql_sum_exact_bound. Qed.

Lemma wrap64_add_l a n : wrap64 (wrap64 a + n) = wrap64 (a + n).
Proof.
  unfold wrap64.
  replace ((a + 2 ^ 63) `mod` 2 ^ 64 - 2 ^ 63 + n + 2 ^ 63)
    with ((a + 2 ^ 63) `mod` 2 ^ 64 + n) by lia.
  rewrite Zplus_mod_idemp_l. do 2 f_equal. lia.
Qed.

Lemma total_app (l k : list Z) :
  foldr Z.add 0 (l ++ k) = foldr Z.add 0 l + foldr Z.add 0 k.
Proof. induction l as [|a l IH]; simpl; lia. Qed.

(** [SUM] over [int] values is the exact total brought back into 64 bits. *)
Lemma sql_sum_wrap vals :
  Forall in_int vals → sql_sum vals = wrap64 <$> exact_sum vals.
Proof.
  unfold sql_sum, exact_sum.
  induction vals as [|v vals IH] using rev_ind; intros Hall; [done|].
  apply Forall_app in Hall as [Hall Hv]. apply Forall_cons in Hv as [Hv _].
  rewrite foldl_app, omap_app. simpl foldl. rewrite IH by done.
  destruct v as [n|]; simpl.
  - specialize (Hv n eq_refl). unfold FromJson.int_min, FromJson.int_max in Hv.
    destruct (omap id vals) as [|m ms]; simpl.
    + f_equal. rewrite wrap64_small; lia.
    + f_equal. rewrite wrap64_add_l, total_app. f_equal. simpl. lia.
  - by rewrite app_nil_r.
Qed.

End sum_facts.

Section from_json_facts.

Lemma int_value_in_int j v : FromJson.int_value j = Some v → in_int v.
Proof.
  unfold FromJson.int_value. intros Hj n ->.
  destruct j; simplify_eq. case_decide; simplify_eq. done.
Qed.

Lemma int_field_in_int k fs v : FromJson.int_field k fs = Some v → in_int v.
Proof.
  unfold FromJson.int_field.
  destruct (mapM FromJson.int_value (FromJson.occurrences k fs)) as [vs|] eqn:Hvs;
    [|done].
  simpl. intros [= <-]. apply mapM_Some_1 in Hvs.
  destruct (last vs) as [v|] eqn:Hlast; simpl; [|intros n; done].
  apply last_Some in Hlast as [vs' ->].
  apply Forall2_app_inv_r in Hvs as (js' & js & _ & Hj & _).
  apply Forall2_cons_inv_r in Hj as (j & ? & Hj & _ & _).
  by eapply int_value_in_int.
Qed.

Lemma expectation_in_int j x :
  FromJson.expectation j = Some x →
  in_int (Expectation.passed_records x) ∧ in_int (Expectation.failed_records x).
Proof.
  destruct j; simpl; try done.
  - intros [= <-]. split; intros n; done.
  - destruct (FromJson.int_field "passed_records" fields) as [p|] eqn:Hp; [|done].
    destruct (FromJson.int_field "failed_records" fields) as [f|] eqn:Hf; [|done].
    simpl. intros [= <-]. simpl. eauto using int_field_in_int.
Qed.

Lemma expectations_in_int j xs x :
  FromJson.expectations j = Some xs → x ∈ xs →
  in_int (Expectation.passed_records x) ∧ in_int (Expectation.failed_records x).
Proof.
  unfold FromJson.expectations. destruct j as [[]|]; try done.
  - intros Hm%mapM_Some_1 Hx.
    apply list_elem_of_lookup in Hx as [i Hi].
    destruct (Forall2_lookup_r _ _ _ _ _ Hm Hi) as (j & _ & Hj).
    by eapply expectation_in_int.
  - destruct (FromJson.expectation (JObj fields)) as [y|] eqn:Hy; [|done].
    simpl. intros [= <-] ->%list_elem_of_singleton. by eapply expectation_in_int.
Qed.

End from_json_facts.

Section quality_facts.
Context (log : list EventRecord) (uid : string).

Lemma elem_of_row_expectations x :
  x ∈ row_expectations log uid ↔
  ∃ e xs, e ∈ log ∧ event_type e = "flow_progress" ∧
          update_id (origin e) = Some uid ∧
          expectations_of e = Some xs ∧ x ∈ xs.
Proof.
  unfold row_expectations. rewrite list_elem_of_bind. split.
  - intros (e & Hx & [[Hty Hu] He]%list_elem_of_filter).
    destruct (expectations_of e) as [xs|] eqn:Hxs; simpl in Hx.
    + by exists e, xs.
    + by apply elem_of_nil in Hx.
  - intros (e & xs & He & Hty & Hu & Hxs & Hx). exists e. split.
    + by rewrite Hxs.
    + by apply list_elem_of_filter.
Qed.

Lemma row_expectations_in_int x :
  x ∈ row_expectations log uid →
  in_int (Expectation.passed_records x) ∧ in_int (Expectation.failed_records x).
Proof.
  intros (e & xs & _ & _ & _ & Hxs & Hx)%elem_of_row_expectations.
  by eapply expectations_in_int.
Qed.

Lemma metric_keys :
  metric_key <$> data_quality_metrics log uid
  = remove_dups (group_key <$> row_expectations log uid).
Proof.
  unfold data_quality_metrics. rewrite <- list_fmap_compose.
  rewrite <- (list_fmap_id (remove_dups _)) at 2.
  apply list_fmap_ext. by intros _ [d n] _.
Qed.

Lemma elem_of_data_quality_metrics m :
  m ∈ data_quality_metrics log uid ↔
  (∃ x, x ∈ row_expectations log uid ∧ group_key x = metric_key m) ∧
  Metric.passing_records m =
    sql_sum (Expectation.passed_records
               <$> group (metric_key m) (row_expectations log uid)) ∧
  Metric.failing_records m =
    sql_sum (Expectation.failed_records
               <$> group (metric_key m) (row_expectations log uid)).
Proof.
  unfold data_quality_metrics. rewrite list_elem_of_fmap.
  setoid_rewrite elem_of_remove_dups. setoid_rewrite list_elem_of_fmap. split.
  - intros ([d n] & -> & x & Hk & Hx). simpl. split; [|done]. by exists x.
  - intros ((x & Hx & Hk) & Hp & Hf). exists (metric_key m). split.
    + rewrite <- Hp, <- Hf. by destruct m.
    + by exists x.
Qed.

Lemma group_sums_exact g :
  Z.of_nat (length (group g (row_expectations log uid))) < 2 ^ 32 →
  sql_sum (Expectation.passed_records <$> group g (row_expectations log uid))
  = exact_sum (Expectation.passed_records <$> group g (row_expectations log uid)) ∧
  sql_sum (Expectation.failed_records <$> group g (row_expectations log uid))
  = exact_sum (Expectation.failed_records <$> group g (row_expectations log uid)).
Proof.
  intros Hlen.
  assert (Hall : ∀ x, x ∈ group g (row_expectations log uid) →
            in_int (Expectation.passed_records x) ∧
            in_int (Expectation.failed_records x)).
  { intros x [_ Hx]%list_elem_of_filter. by apply row_expectations_in_int. }
  split; apply sql_sum_exact; rewrite ?length_fmap; try done;
    apply Forall_fmap, Forall_forall; intros x Hx; simpl; by apply Hall.
Qed.

End quality_facts.

Lemma expectation_of_report (r : Report) :
  report_ok r → FromJson.expectation (report_json r) = Some (report_row r).
Proof.
  destruct r as [n d p f]. intros [Hp Hf]. simpl in Hp, Hf.
  unfold report_json, report_row, expectation_report, FromJson.expectation,
    FromJson.int_field, FromJson.string_field, FromJson.occurrences. simpl.
  by rewrite !decide_True by done.
Qed.

(** What the parse yields for an array of reports. *)
Lemma expectations_of_reports (e : EventRecord) (rs : list Report) :
  Json.path (details e) ["flow_progress"; "data_quality"; "expectations"]
    = Some (JArr (report_json <$> rs)) →
  Forall report_ok rs →
  expectations_of e = Some (report_row <$> rs).
Proof.
  intros Hpath Hok. unfold expectations_of. rewrite Hpath.
  unfold FromJson.expectations. apply mapM_Some. clear Hpath.
  induction Hok as [|r rs Hr Hok IH]; [constructor|].
  rewrite !fmap_cons. constructor; [by apply expectation_of_report|done].
Qed.

(** The exploded rows of a log made of reports only. *)
Lemma row_expectations_reports (uid : string) (batches : list (Z * list Report)) :
  Forall report_ok (batches ≫= snd) →
  row_expectations (report_event uid <$> batches) uid
  = report_row <$> (batches ≫= snd).
Proof.
  unfold row_expectations. induction batches as [|b batches IH]; [done|].
  rewrite bind_cons. intros [Hb Hrest]%Forall_app.
  rewrite fmap_cons, filter_cons, decide_True by done.
  rewrite bind_cons, fmap_app, IH by done. f_equal.
  by rewrite (expectations_of_reports (report_event uid b) b.2).
Qed.

Section quality_explicit.
Context (log : list EventRecord) (uid : string).

Lemma group_explicit (m : Metric.t) :
  group (metric_key m) (row_expectations log uid)
  = filter (λ x, Expectation.dataset x = Metric.dataset m ∧
                 Expectation.name x = Metric.expectation m)
           (row_expectations log uid).
Proof.
  unfold group. apply list_filter_iff. intros x.
  unfold group_key, metric_key. split; [by intros [= -> ->]|by intros [-> ->]].
Qed.

(** The result, row by row: a row for every pair of grouping values that
    occurs, holding the totals over the rows of that pair. *)
Lemma elem_of_metrics_explicit (m : Metric.t) :
  m ∈ data_quality_metrics log uid ↔
  (∃ x, x ∈ row_expectations log uid ∧
        Expectation.dataset x = Metric.dataset m ∧
        Expectation.name x = Metric.expectation m) ∧
  Metric.passing_records m =
    wrap64 <$> exact_sum
      (Expectation.passed_records
         <$> filter (λ x, Expectation.dataset x = Metric.dataset m ∧
                          Expectation.name x = Metric.expectation m)
                    (row_expectations log uid)) ∧
  Metric.failing_records m =
    wrap64 <$> exact_sum
      (Expectation.failed_records
         <$> filter (λ x, Expectation.dataset x = Metric.dataset m ∧
                          Expectation.name x = Metric.expectation m)
                    (row_expectations log uid)).
Proof.
  rewrite elem_of_data_quality_metrics, group_explicit.
  assert (Hint : Forall in_int
            (Expectation.passed_records
               <$> filter (λ x, Expectation.dataset x = Metric.dataset m ∧
                                Expectation.name x = Metric.expectation m)
                          (row_expectations log uid)) ∧
          Forall in_int
            (Expectation.failed_records
               <$> filter (λ x, Expectation.dataset x = Metric.dataset m ∧
                                Expectation.name x = Metric.expectation m)
                          (row_expectations log uid))).
  { split; apply Forall_fmap, Forall_forall;
      intros x [_ Hx]%list_elem_of_filter; simpl;
      by apply (row_expectations_in_int log uid). }
  destruct Hint as [Hp Hf]. rewrite !sql_sum_wrap by done.
  assert (Hkey : (∃ x, x ∈ row_expectations log uid ∧ group_key x = metric_key m) ↔
                 (∃ x, x ∈ row_expectations log uid ∧
                       Expectation.dataset x = Metric.dataset m ∧
                       Expectation.name x = Metric.expectation m)).
  { unfold group_key, metric_key.
    split; intros (x & Hx & H); exists x; (split; [done|]).
    - by injection H.
    - destruct H as [-> ->]. done. }
  by rewrite Hkey.
Qed.

Lemma metrics_exact (m : Metric.t) :
  m ∈ data_quality_metrics log uid →
  Z.of_nat (length (filter (λ x, Expectation.dataset x = Metric.dataset m ∧
                                 Expectation.name x = Metric.expectation m)
                           (row_expectations log uid))) < 2 ^ 32 →
  Metric.passing_records m =
    exact_sum
      (Expectation.passed_records
         <$> filter (λ x, Expectation.dataset x = Metric.dataset m ∧
                          Expectation.name x = Metric.expectation m)
                    (row_expectations log uid)) ∧
  Metric.failing_records m =
    exact_sum
      (Expectation.failed_records
         <$> filter (λ x, Expectation.dataset x = Metric.dataset m ∧
                          Expectation.name x = Metric.expectation m)
                    (row_expectations log uid)).
Proof.
  intros Hm Hlen. apply elem_of_data_quality_metrics in Hm as (_ & -> & ->).
  rewrite <- group_explicit in *. by apply group_sums_exact.
Qed.

End quality_explicit.

(** C5. The data quality query keeps the [flow_progress] events of the
    update, parses the [expectations] array of each (an array of reports
    with counts within [int] parses to one row per report, holding the
    report's name, dataset and counts) and takes every element as one row.
    The result has one row per pair (dataset, name) occurring among these
    rows and no other; a row is in the result exactly when its pair occurs
    and its two counts are the totals of [passed_records] and
    [failed_records] over the rows with that dataset and that name, as a
    64-bit sum; with fewer than 2^32 such rows they are the exact totals.
    Two events reporting (10, 2) and (5, 1) for valid_id on orders give the
    single row (orders, valid_id, 15, 3). *)
Theorem data_quality_metrics_spec :
  (∀ (e : EventRecord) (rs : list Report),
     Json.path (details e) ["flow_progress"; "data_quality"; "expectations"]
       = Some (JArr (report_json <$> rs)) →
     Forall report_ok rs →
     expectations_of e = Some (report_row <$> rs)) ∧
  (∀ (uid : string) (batches : list (Z * list Report)),
     Forall report_ok (batches ≫= snd) →
     row_expectations (report_event uid <$> batches) uid
     = report_row <$> (batches ≫= snd)) ∧
  (∀ (log : list EventRecord) (uid : string) (x : Expectation.t),
     x ∈ row_expectations log uid ↔
     ∃ e xs, e ∈ log ∧ event_type e = "flow_progress" ∧
             update_id (origin e) = Some uid ∧
             expectations_of e = Some xs ∧ x ∈ xs) ∧
  (∀ (log : list EventRecord) (uid : string),
     NoDup (metric_key <$> data_quality_metrics log uid)) ∧
  (∀ (log : list EventRecord) (uid : string) (g : option string * option string),
     g ∈ metric_key <$> data_quality_metrics log uid ↔
     ∃ x, x ∈ row_expectations log uid ∧ group_key x = g) ∧
  (∀ (log : list EventRecord) (uid : string) (m : Metric.t),
     m ∈ data_quality_metrics log uid ↔
     (∃ x, x ∈ row_expectations log uid ∧
           Expectation.dataset x = Metric.dataset m ∧
           Expectation.name x = Metric.expectation m) ∧
     Metric.passing_records m =
       wrap64 <$> exact_sum
         (Expectation.passed_records
            <$> filter (λ x, Expectation.dataset x = Metric.dataset m ∧
                             Expectation.name x = Metric.expectation m)
                       (row_expectations log uid)) ∧
     Metric.failing_records m =
       wrap64 <$> exact_sum
         (Expectation.failed_records
            <$> filter (λ x, Expectation.dataset x = Metric.dataset m ∧
                             Expectation.name x = Metric.expectation m)
                       (row_expectations log uid))) ∧
  (∀ (log : list EventRecord) (uid : string) (m : Metric.t),
     m ∈ data_quality_metrics log uid →
     Z.of_nat (length (filter (λ x, Expectation.dataset x = Metric.dataset m ∧
                                    Expectation.name x = Metric.expectation m)
                              (row_expectations log uid))) < 2 ^ 32 →
     Metric.passing_records m =
       exact_sum
         (Expectation.passed_records
            <$> filter (λ x, Expectation.dataset x = Metric.dataset m ∧
                             Expectation.name x = Metric.expectation m)
                       (row_expectations log uid)) ∧
     Metric.failing_records m =
       exact_sum
         (Expectation.failed_records
            <$> filter (λ x, Expectation.dataset x = Metric.dataset m ∧
                             Expectation.name x = Metric.expectation m)
                       (row_expectations log uid))) ∧
  data_quality_metrics orders_log "u" = [orders_metric].
Proof.
  split; [apply expectations_of_reports|].
  split; [apply row_expectations_reports|].
  split; [apply elem_of_row_expectations|].
  split; [intros; rewrite metric_keys; apply NoDup_remove_dups|].
  split.
  { intros log uid g. rewrite metric_keys, elem_of_remove_dups, list_elem_of_fmap.
    split; intros (x & ? & ?); by exists x. }
  split; [apply elem_of_metrics_explicit|].
  split; [apply metrics_exact|by vm_compute].
Qed.

(** C5, on an instance: the two reports on orders, parsed, exploded and
    summed. *)
Lemma data_quality_metrics_spec_witness :
  Forall report_ok (orders_reports ≫= snd) ∧
  row_expectations (report_event "u" <$> orders_reports) "u"
  = report_row <$> (orders_reports ≫= snd) ∧
  orders_metric ∈ data_quality_metrics orders_log "u" ∧
  Z.of_nat (length (filter (λ x, Expectation.dataset x = Metric.dataset orders_metric ∧
                                 Expectation.name x = Metric.expectation orders_metric)
                           (row_expectations orders_log "u"))) < 2 ^ 32 ∧
  Metric.passing_records orders_metric = Some (10 + (5 + 0)) ∧
  Metric.failing_records orders_metric = Some (2 + (1 + 0)).
Proof.
  assert (Hok : Forall report_ok (orders_reports ≫= snd)).
  { repeat constructor; vm_compute; discriminate. }
  assert (Hm : orders_metric ∈ data_quality_metrics orders_log "u")
    by (vm_compute; left).
  assert (Hlen : Z.of_nat
            (length (filter (λ x, Expectation.dataset x = Metric.dataset orders_metric ∧
                                  Expectation.name x = Metric.expectation orders_metric)
                            (row_expectations orders_log "u"))) < 2 ^ 32)
    by (vm_compute; reflexivity).
  split; [exact Hok|]. split.
  - exact (proj1 (proj2 data_quality_metrics_spec) "u" orders_reports Hok).
  - split; [exact Hm|]. split; [exact Hlen|].
    exact (proj1 (proj2 (proj2 (proj2 (proj2 (proj2 (proj2
             data_quality_metrics_spec))))))
             orders_log "u" orders_metric Hm Hlen).
Defined.






(** ** The session: what the cells share *)

Section session_facts.

Lemma set_latest_update_id_Returned s s' :
  set_latest_update_id s = Returned s' →
  ∃ id, latest_update_id (event_log_raw s) = Returned (Some id) ∧
        s' = {| event_log_raw := event_log_raw s;
                conf := <["latest_update.id" := id]> (conf s) |}.
Proof.
  unfold set_latest_update_id.
  destruct (latest_update_id (event_log_raw s)) as [[id|]|]; try done.
  intros [= <-]. by exists id.
Qed.

Lemma substituted_update_id_set s id :
  substituted_update_id
    {| event_log_raw := event_log_raw s;
       conf := <["latest_update.id" := id]> (conf s) |} = id.
Proof. unfold substituted_update_id. simpl. by rewrite lookup_insert_eq. Qed.

Lemma then_query_snapshot {A} (query : Session → A) s t :
  (∀ s1 s2, event_log_raw s1 = event_log_raw s2 →
            substituted_update_id s1 = substituted_update_id s2 →
            query s1 = query s2) →
  event_log_raw s = event_log_raw t →
  then_query query s = then_query query t.
Proof.
  intros Hq Hlog. unfold then_query, set_latest_update_id. rewrite Hlog.
  destruct (latest_update_id (event_log_raw t)) as [[id|]|]; try done.
  f_equal. apply Hq; [done|].
  rewrite <- Hlog at 1. by rewrite !substituted_update_id_set.
Qed.

Lemma stale_session_run :
  set_latest_update_id stale_session = Returned fresh_session.
Proof.
  unfold set_latest_update_id, stale_session, fresh_session. simpl.
  replace (latest_update_id two_updates_log)
    with (@Returned (option string) (Some "u2")) by (by vm_compute).
  by f_equal.
Qed.

End session_facts.

(** C9, as stated, fails: the cell of [latest_update_id] writes into the
    shared Spark configuration, and the lineage and data quality cells read
    it.  On a log with two updates and a session still set to the first,
    running the cell changes the configuration and with it the result of
    both later queries, the log being the same. *)
Lemma latest_cell_changes_later_queries :
  set_latest_update_id stale_session = Returned fresh_session ∧
  event_log_raw fresh_session = event_log_raw stale_session ∧
  conf fresh_session ≠ conf stale_session ∧
  lineage_cell stale_session = [(Some "D", [["B"]; []; []])] ∧
  lineage_cell fresh_session = [(Some "D", [["C"]; []; []])] ∧
  lineage_cell fresh_session ≠ lineage_cell stale_session ∧
  data_quality_cell fresh_session ≠ data_quality_cell stale_session.
Proof.
  split_and!.
  - exact stale_session_run.
  - done.
  - intros Heq. apply (f_equal (λ c, c !! "latest_update.id")) in Heq.
    unfold fresh_session, stale_session in Heq. simpl in Heq.
    rewrite !lookup_singleton_eq in Heq. discriminate.
  - by vm_compute.
  - by vm_compute.
  - by vm_compute.
  - by vm_compute.
Qed.

(** C9, amended.  The cell of [latest_update_id] leaves the log alone and
    writes the id it found under [latest_update.id] of the configuration,
    nothing else, and running it again changes nothing.  The lineage and
    data quality cells are functions of the log and of that setting: two
    sessions agreeing on both get the same results.  Run after the cell of
    [latest_update_id], they are functions of the log alone. *)
Theorem session_queries_spec :
  (∀ s s', set_latest_update_id s = Returned s' →
     event_log_raw s' = event_log_raw s ∧
     ∃ id, latest_update_id (event_log_raw s) = Returned (Some id) ∧
           conf s' = <["latest_update.id" := id]> (conf s)) ∧
  (∀ s s', set_latest_update_id s = Returned s' →
     set_latest_update_id s' = Returned s') ∧
  (∀ s t, event_log_raw s = event_log_raw t →
     conf s !! "latest_update.id" = conf t !! "latest_update.id" →
     lineage_cell s = lineage_cell t ∧ data_quality_cell s = data_quality_cell t) ∧
  (∀ s t, event_log_raw s = event_log_raw t →
     then_query lineage_cell s = then_query lineage_cell t ∧
     then_query data_quality_cell s = then_query data_quality_cell t).
Proof.
  split; [|split; [|split]].
  - intros s s' (id & Hid & ->)%set_latest_update_id_Returned. split; [done|].
    by exists id.
  - intros s s' (id & Hid & ->)%set_latest_update_id_Returned.
    unfold set_latest_update_id. simpl. rewrite Hid.
    by rewrite insert_insert_eq.
  - intros s t Hlog Hconf.
    unfold lineage_cell, data_quality_cell, substituted_update_id.
    by rewrite Hlog, Hconf.
  - intros s t Hlog. split; apply then_query_snapshot; try done.
    + intros s1 s2 H1 H2. unfold lineage_cell. by rewrite H1, H2.
    + intros s1 s2 H1 H2. unfold data_quality_cell. by rewrite H1, H2.
Qed.

(** C9 amended, on an instance: the stale and the fresh session hold the
    same log; after the cell of [latest_update_id] both give the results of
    the second update. *)
Lemma session_queries_spec_witness :
  set_latest_update_id stale_session = Returned fresh_session ∧
  event_log_raw stale_session = event_log_raw fresh_session ∧
  set_latest_update_id fresh_session = Returned fresh_session ∧
  then_query lineage_cell stale_session = then_query lineage_cell fresh_session ∧
  then_query data_quality_cell stale_session
  = then_query data_quality_cell fresh_session.
Proof.
  pose proof stale_session_run as Hrun.
  assert (Hlog : event_log_raw stale_session = event_log_raw fresh_session)
    by reflexivity.
  split; [exact Hrun|]. split; [exact Hlog|]. split.
  - exact (proj1 (proj2 session_queries_spec) stale_session fresh_session Hrun).
  - exact (proj2 (proj2 (proj2 session_queries_spec)) stale_session fresh_session Hlog).
Defined.

(** C10, on an instance: the columns of D in the notebook's result for the
    diamond. *)
Lemma depth_level_duplicate_free_witness :
  (Some "D", [["B"; "C"]; ["A"]; []]) ∈ lineage_query diamond ∧
  Forall NoDup [["B"; "C"]; ["A"]; []].
Proof.
  assert (H : (Some "D", [["B"; "C"]; ["A"]; []]) ∈ lineage_query diamond).
  { vm_compute. do 2 right. left. }
  split; [exact H|].
  exact (proj1 (proj2 depth_level_duplicate_free) diamond (Some "D") _ H).
Defined.

(** ** More on the extraction of names *)

Lemma quoted_runs_extractable run txt x :
  (∀ r, run = Some r → Forall (λ c, c ≠ Json.dquote) r) →
  x ∈ quoted_runs run txt → extractable x.
Proof.
  revert run. induction txt as [|c txt IH]; intros run Hrun Hx.
  { by apply elem_of_nil in Hx. }
  cbn [quoted_runs] in Hx. destruct (decide (c = Json.dquote)) as [->|Hc].
  - destruct run as [[|a r]|].
    + apply (IH (Some [])); [|done]. by intros r [= <-].
    + apply elem_of_cons in Hx as [->|Hx].
      * split.
        -- simpl. destruct (rev r); discriminate.
        -- rewrite String.list_ascii_of_string_of_list_ascii.
           apply List.Forall_rev. by apply Hrun.
      * apply (IH None); [|done]. by intros r' [=].
    + apply (IH (Some [])); [|done]. by intros r [= <-].
  - destruct run as [r|].
    + apply (IH (Some (c :: r))); [|done]. intros r' [= <-].
      constructor; [done|]. by apply Hrun.
    + apply (IH None); [|done]. by intros r' [=].
Qed.

(** X1. Whatever the text of [input_datasets], every name the pattern of
    [l1_arr] returns is non-empty and free of double quotes; so no lineage
    column, of any root at any depth, ever holds the empty name, and an
    array holding an empty name or a name with a double quote is never read
    back as it was written. *)
Theorem extracted_names_extractable :
  (∀ (txt x : string), x ∈ quoted_runs None txt → extractable x) ∧
  (∀ (raw : list (option string * option string)) (x : string) (o : option string),
     edge (l1_arr raw) x o → extractable x) ∧
  (∀ (log : list EventRecord) (uid root : string) (d k : nat) (x : string),
     x ∈ depth_set (l1_arr (l1_raw log uid)) root d k → extractable x) ∧
  (∀ (names : list string) (s : string),
     s ∈ names → ¬ extractable s →
     regexp_extract_all_quoted (Some (Json.text (JArr (JStr <$> names))))
     ≠ Some names).
Proof.
  assert (H1 : ∀ txt x, x ∈ quoted_runs None txt → extractable x).
  { intros txt x. apply quoted_runs_extractable. by intros r [=]. }
  assert (H2 : ∀ raw x o, edge (l1_arr raw) x o → extractable x).
  { intros raw x o (ins & Hin & Hx). unfold l1_arr in Hin.
    apply list_elem_of_fmap in Hin as ([o' [txt|]] & Heq & _); simpl in Heq; [|done].
    injection Heq as -> ->. by eapply H1. }
  split; [done|]. split; [done|]. split.
  - intros log uid root d k x [_ Hr]%elem_of_depth_set.
    assert (∃ o, edge (l1_arr (l1_raw log uid)) x o) as [o He]
      by (destruct Hr; eauto).
    by eapply H2.
  - intros names s Hs Hbad.
    generalize (Json.text (JArr (JStr <$> names))).
    unfold regexp_extract_all_quoted. intros txt [= Heq].
    apply Hbad, (H1 txt). by rewrite Heq.
Qed.

(** X1, on an instance: a name read from a printed array of two names. *)
Lemma extracted_names_extractable_witness :
  "B" ∈ quoted_runs None (Json.text (JArr [JStr "B"; JStr "C"])) ∧ extractable "B".
Proof.
  assert (H : "B" ∈ quoted_runs None (Json.text (JArr [JStr "B"; JStr "C"])))
    by (vm_compute; left).
  split; [exact H|].
  exact (proj1 extracted_names_extractable _ "B" H).
Defined.

(** X2. A [flow_definition] event of the update whose [output_dataset] is a
    string and whose [input_datasets] is an array of names, all non-empty
    and free of quotes, backslashes and characters below U+0020 (so that
    they are printed without escapes), gives [l1] exactly one row per name,
    in the order of the array. *)
Theorem l1_reads_back_input_datasets
    (e : EventRecord) (uid out : string) (names : list string) :
  event_type e = "flow_definition" → update_id (origin e) = Some uid →
  Json.path (details e) ["flow_definition"; "output_dataset"] = Some (JStr out) →
  Json.path (details e) ["flow_definition"; "input_datasets"]
    = Some (JArr (JStr <$> names)) →
  Forall (λ s, plain s ∧ s ≠ "") names →
  l1_arr (l1_raw [e] uid) = [(Some out, Some names)] ∧
  l1 (l1_arr (l1_raw [e] uid))
  = (λ x, {| output_dataset := Some out; input_depth := 1; input_dataset := x |})
      <$> names.
Proof.
  intros Hty Hu Hout Hin Hnames.
  assert (Harr : l1_arr (l1_raw [e] uid) = [(Some out, Some names)]).
  { unfold l1_raw. rewrite filter_cons, decide_True by done.
    rewrite filter_nil. cbn [fmap list_fmap l1_arr].
    rewrite (extract_string _ _ _ Hout), (extract_array _ _ _ Hin).
    cbn [fst snd]. by rewrite regexp_extract_all_names. }
  split; [done|]. rewrite Harr. unfold l1.
  rewrite bind_cons, app_nil_r. cbn [explode default snd fst].
  change (id names) with names.
  clear. induction names as [|x names IH]; [done|].
  rewrite bind_cons, fmap_cons, IH. done.
Qed.

(** X2, on an instance: a definition of D reading B and C. *)
Lemma l1_reads_back_input_datasets_witness :
  Forall (λ s, plain s ∧ s ≠ "") ["B"; "C"] ∧
  l1 (l1_arr (l1_raw [flow_definition_event 21 "u2" "D" ["B"; "C"]] "u2"))
  = (λ x, {| output_dataset := Some "D"; input_depth := 1; input_dataset := x |})
      <$> ["B"; "C"].
Proof.
  assert (Hnames : Forall (λ s, plain s ∧ s ≠ "") ["B"; "C"]).
  { repeat constructor; discriminate. }
  split; [exact Hnames|].
  exact (proj2 (l1_reads_back_input_datasets
                  (flow_definition_event 21 "u2" "D" ["B"; "C"]) "u2" "D" ["B"; "C"]
                  eq_refl eq_refl eq_refl eq_refl Hnames)).
Defined.

(** ** More on the lineage query *)

Lemma omap_left_join_row {A B C} (on : A → B → Prop) `{!RelDecision on}
    (f : A → B → C) (l : list A) (r : list B) :
  omap (λ p : A * option B, b ← p.2; Some (f p.1 b)) (left_join on l r)
  = (λ p : A * B, f p.1 p.2) <$> inner_join on l r.
Proof.
  unfold left_join, inner_join. induction l as [|a l IH]; [done|].
  rewrite !bind_cons, omap_app, fmap_app, IH. f_equal.
  destruct (filter (on a) r) as [|m ms]; [done|].
  generalize (m :: ms). intros bs. induction bs as [|b bs IHb]; [done|].
  rewrite !fmap_cons. cbn [omap list_omap]. simpl. by rewrite <- IHb.
Qed.

Lemma next_level_inner_join_eq (depth : nat) (prev edges : list LineageRow) :
  next_level depth prev edges
  = (λ p, {| output_dataset := output_dataset p.1;
             input_depth := depth;
             input_dataset := input_dataset p.2 |})
      <$> inner_join join_on prev edges.
Proof.
  unfold next_level.
  apply (omap_left_join_row join_on
           (λ a b, {| output_dataset := output_dataset a;
                      input_depth := depth;
                      input_dataset := input_dataset b |})).
Qed.

(** X3. The [LEFT JOIN] of [l2] and [l3] keeps no row of its own: with
    the [WHERE ... IS NOT NULL] after it, the level is the inner join of the
    previous level with [l1].  A row whose input has no flow definition
    contributes nothing to the next level. *)
Theorem next_level_is_inner_join :
  (∀ (depth : nat) (prev edges : list LineageRow),
     next_level depth prev edges
     = (λ p, {| output_dataset := output_dataset p.1;
                input_depth := depth;
                input_dataset := input_dataset p.2 |})
         <$> inner_join join_on prev edges) ∧
  (∀ (depth : nat) (before after edges : list LineageRow) (leaf : LineageRow),
     (∀ b, b ∈ edges → output_dataset b ≠ Some (input_dataset leaf)) →
     next_level depth (before ++ leaf :: after) edges
     = next_level depth (before ++ after) edges).
Proof.
  pose proof next_level_inner_join_eq as H.
  split; [exact H|].
  intros depth before after edges leaf Hleaf. rewrite !H. f_equal.
  unfold inner_join. rewrite !bind_app, bind_cons.
  assert (Hnil : filter (join_on leaf) edges = []).
  { apply elem_of_nil_inv. intros b [Hon Hb]%list_elem_of_filter.
    unfold join_on in Hon. by destruct (Hleaf b Hb). }
  by rewrite Hnil.
Qed.

(** X3, on an instance: the row (B, 1, A) of the diamond reads A, which no
    flow defines; dropping it from the left side changes nothing. *)
Lemma next_level_is_inner_join_witness :
  (∀ b, b ∈ l1 diamond →
        output_dataset b ≠
        Some (input_dataset {| output_dataset := Some "B"; input_depth := 1;
                               input_dataset := "A" |})) ∧
  l2 diamond
  = next_level 2
      (drop 1 (l1 diamond)) (l1 diamond).
Proof.
  assert (Hleaf : ∀ b, b ∈ l1 diamond →
            output_dataset b ≠
            Some (input_dataset {| output_dataset := Some "B"; input_depth := 1;
                                   input_dataset := "A" |})).
  { intros b Hb. vm_compute in Hb.
    repeat (apply elem_of_cons in Hb as [->|Hb]; [discriminate|]).
    by apply elem_of_nil in Hb. }
  split; [exact Hleaf|].
  exact (proj2 next_level_is_inner_join 2%nat [] (drop 1 (l1 diamond)) (l1 diamond)
           {| output_dataset := Some "B"; input_depth := 1; input_dataset := "A" |}
           Hleaf).
Defined.

Section lineage_more.
Context (arr : list FlowRow).

Lemma has_group_iff (g : option string) d :
  g ∈ output_dataset <$> levels arr (S d) ↔ ∃ x, edge arr x g.
Proof.
  rewrite list_elem_of_fmap. split.
  - intros (row & -> & [_ Hr]%elem_of_levels). by eapply reach_has_edge.
  - intros [x He].
    exists {| output_dataset := g; input_depth := 1; input_dataset := x |}.
    split; [done|]. apply elem_of_levels. simpl. split; [lia|]. by constructor.
Qed.

End lineage_more.

(** X4. The lineage result has one row for every [output_dataset] (NULL
    included) that has at least one extracted input, and no other row: a
    dataset whose flow definitions list no input has no row of its own. *)
Theorem lineage_rows_have_inputs (arr : list FlowRow) :
  NoDup (lineage_query arr).*1 ∧
  (∀ g, g ∈ (lineage_query arr).*1 ↔ ∃ x, edge arr x g) ∧
  (∀ g cols, (g, cols) ∈ lineage_query arr → length cols = 3%nat ∧
             ∃ x, x ∈ default [] (head cols)).
Proof.
  split; [apply pivot_keys_NoDup|].
  assert (Hkeys : ∀ g, g ∈ (lineage_query arr).*1 ↔ ∃ x, edge arr x g).
  { intros g. rewrite lineage_query_depth3. unfold lineage.
    rewrite list_elem_of_fmap. split.
    - intros ([g' cols] & -> & [Hg _]%elem_of_pivot). by apply has_group_iff in Hg.
    - intros Hx. eexists (g, _). split; [done|].
      apply elem_of_pivot. split; [by apply has_group_iff|done]. }
  split; [exact Hkeys|].
  intros g cols Hin.
  assert (Hg : g ∈ (lineage_query arr).*1).
  { apply list_elem_of_fmap. by exists (g, cols). }
  apply Hkeys in Hg as [x He].
  unfold lineage_query in Hin. apply elem_of_pivot in Hin as [_ ->].
  split; [done|]. exists x. simpl. apply elem_of_column.
  apply elem_of_app. left. by apply elem_of_l1.
Qed.

(** X4, on an instance: the row of D in the diamond. *)
Lemma lineage_rows_have_inputs_witness :
  (Some "D", [["B"; "C"]; ["A"]; []]) ∈ lineage_query diamond ∧
  length [["B"; "C"]; ["A"]; []] = 3%nat ∧
  ∃ x, x ∈ default [] (head [["B"; "C"]; ["A"]; []]).
Proof.
  assert (H : (Some "D", [["B"; "C"]; ["A"]; []]) ∈ lineage_query diamond).
  { vm_compute. do 2 right. left. }
  split; [exact H|].
  exact (proj2 (proj2 (lineage_rows_have_inputs diamond)) (Some "D") _ H).
Defined.

(** X5. Each level is made of the direct inputs of the level before: for
    [k >= 1], [x] is at depth [k + 1] of a root exactly when that depth is
    asked for and [x] is a direct input of some dataset at depth [k].  In
    the notebook's row of a root, [L2] holds the inputs of the members of
    [L1] and [L3] those of the members of [L2]. *)
Theorem depth_set_step :
  (∀ (arr : list FlowRow) (root : string) (d k : nat) (x : string),
     (1 ≤ k)%nat →
     (x ∈ depth_set arr root d (S k) ↔
      (S k ≤ d)%nat ∧ ∃ y, y ∈ depth_set arr root d k ∧ edge arr x (Some y))) ∧
  (∀ (arr : list FlowRow) (root : string) (L1 L2 L3 : list string),
     (Some root, [L1; L2; L3]) ∈ lineage_query arr →
     ∀ x, (x ∈ L2 ↔ ∃ y, y ∈ L1 ∧ edge arr x (Some y)) ∧
          (x ∈ L3 ↔ ∃ y, y ∈ L2 ∧ edge arr x (Some y))).
Proof.
  assert (Hstep : ∀ arr root d k x, (1 ≤ k)%nat →
            (x ∈ depth_set arr root d (S k) ↔
             (S k ≤ d)%nat ∧ ∃ y, y ∈ depth_set arr root d k ∧ edge arr x (Some y))).
  { intros arr root d k x Hk. rewrite elem_of_depth_set. split.
    - intros [Hd Hr]. split; [lia|].
      inversion Hr as [? ? He|k' ? y ? Hr' He]; subst; [lia|].
      exists y. split; [|done]. apply elem_of_depth_set. split; [lia|done].
    - intros (Hd & y & [_ Hy]%elem_of_depth_set & He). split; [lia|].
      by eapply reach_step. }
  split; [exact Hstep|].
  intros arr root L1 L2 L3 Hrow x. rewrite lineage_query_depth3 in Hrow.
  apply resolve_Some_iff in Hrow.
  assert (HL : ∀ k col, [L1; L2; L3] !! k = Some col →
            col = depth_set arr root 3 (S k)).
  { intros k col Hcol. unfold depth_set. by rewrite Hrow, Hcol. }
  rewrite (HL 0%nat L1 eq_refl), (HL 1%nat L2 eq_refl), (HL 2%nat L3 eq_refl).
  split.
  - rewrite (Hstep arr root 3%nat 1%nat x) by lia. split; [by intros [_ ?]|].
    intros ?. split; [lia|done].
  - rewrite (Hstep arr root 3%nat 2%nat x) by lia. split; [by intros [_ ?]|].
    intros ?. split; [lia|done].
Qed.

(** X5, on an instance: A at depth 2 of D in the diamond. *)
Lemma depth_set_step_witness :
  (1 ≤ 1)%nat ∧
  ("A" ∈ depth_set diamond "D" 3 2 ↔
   (2 ≤ 3)%nat ∧ ∃ y, y ∈ depth_set diamond "D" 3 1 ∧ edge diamond "A" (Some y)) ∧
  (Some "D", [["B"; "C"]; ["A"]; []]) ∈ lineage_query diamond ∧
  ("A" ∈ ["A"] ↔ ∃ y, y ∈ ["B"; "C"] ∧ edge diamond "A" (Some y)).
Proof.
  assert (H1 : (1 ≤ 1)%nat) by lia.
  assert (Hrow : (Some "D", [["B"; "C"]; ["A"]; []]) ∈ lineage_query diamond).
  { vm_compute. do 2 right. left. }
  split; [exact H1|]. split; [|split; [exact Hrow|]].
  - exact (proj1 depth_set_step diamond "D" 3%nat 1%nat "A" H1).
  - exact (proj1 (proj2 depth_set_step diamond "D" _ _ _ Hrow "A")).
Defined.

(** X7. More flow definitions never remove an ancestor: when every row of
    one edge table is in another, each dataset at depth [k] of a root in the
    first is at depth [k] of it in the second. *)
Theorem depth_set_mono (arr arr' : list FlowRow) (root : string) (d k : nat) (x : string) :
  arr ⊆ arr' → x ∈ depth_set arr root d k → x ∈ depth_set arr' root d k.
Proof.
  intros Hsub. rewrite !elem_of_depth_set. intros [Hk Hr]. split; [done|].
  assert (Hedge : ∀ y o, edge arr y o → edge arr' y o).
  { intros y o (ins & Hin & Hy). exists ins. split; [by apply Hsub|done]. }
  clear Hk. induction Hr as [y o He|k y z o Hr IH He].
  - constructor. by apply Hedge.
  - eapply reach_step; [exact IH|by apply Hedge].
Qed.

(** X7, on an instance: the diamond without the definition of D. *)
Lemma depth_set_mono_witness :
  take 2 diamond ⊆ diamond ∧ "A" ∈ depth_set (take 2 diamond) "B" 3 1 ∧
  "A" ∈ depth_set diamond "B" 3 1.
Proof.
  assert (Hsub : take 2 diamond ⊆ diamond).
  { intros r Hr. vm_compute in Hr.
    apply elem_of_cons in Hr as [->|Hr]; [left|].
    apply elem_of_cons in Hr as [->|Hr]; [right; left|].
    by apply elem_of_nil in Hr. }
  assert (Hx : "A" ∈ depth_set (take 2 diamond) "B" 3 1) by (vm_compute; left).
  split; [exact Hsub|]. split; [exact Hx|].
  exact (depth_set_mono (take 2 diamond) diamond "B" 3 1 "A" Hsub Hx).
Defined.

(** X8. The rows of the union can multiply with the number of paths but
    not beyond: a level holds at most as many rows as the level before
    times [l1], so level [k] holds at most [|l1|^k] rows. *)
Theorem level_length_bound :
  (∀ (depth : nat) (prev edges : list LineageRow),
     (length (next_level depth prev edges) ≤ length prev * length edges)%nat) ∧
  (∀ (arr : list FlowRow) (k : nat),
     (length (level arr k) ≤ length (l1 arr) ^ k)%nat).
Proof.
  assert (Hnext : ∀ depth prev edges,
            (length (next_level depth prev edges) ≤ length prev * length edges)%nat).
  { intros depth prev edges.
    rewrite next_level_inner_join_eq, length_fmap. unfold inner_join.
    induction prev as [|a prev IH]; [done|].
    rewrite bind_cons, length_app, length_fmap. simpl.
    pose proof (length_filter (join_on a) edges). lia. }
  split; [exact Hnext|].
  intros arr k. induction k as [|k IH]; [simpl; lia|].
  destruct k as [|k]; [simpl; lia|].
  change (level arr (S (S k)))
    with (next_level (S (S k)) (level arr (S k)) (l1 arr)).
  etrans; [apply Hnext|].
  change (length (l1 arr) ^ S (S k))%nat
    with (length (l1 arr) * length (l1 arr) ^ S k)%nat.
  rewrite (Nat.mul_comm (length (l1 arr))). by apply Nat.mul_le_mono_r.
Qed.

(** ** More on the latest update *)

Lemma is_create_update_app (before after : list EventRecord) (e e' : EventRecord) :
  e' ∈ (before ++ e :: after)%list ↔ e' = e ∨ e' ∈ (before ++ after)%list.
Proof. rewrite !elem_of_app, elem_of_cons. tauto. Qed.

(** X9. How the result follows the log: an event that is not a
    [create_update] never changes it, wherever it is inserted; a
    [create_update] later than all the others becomes the result, wherever
    it is inserted. *)
Theorem latest_update_id_insert (before after : list EventRecord) (e : EventRecord) :
  (event_type e ≠ "create_update" →
   latest_update_id (before ++ e :: after) = latest_update_id (before ++ after)) ∧
  (event_type e = "create_update" →
   (∀ e', e' ∈ (before ++ after)%list → event_type e' = "create_update" →
          timestamp e' < timestamp e) →
   latest_update_id (before ++ e :: after) = Returned (update_id (origin e))).
Proof.
  split.
  - intros Hty. unfold latest_update_id, latest_update_rows.
    by rewrite !filter_app, filter_cons, decide_False.
  - intros Hty Hnew.
    destruct (latest_update_id_cases (before ++ e :: after))
      as [[Hnone _]|(e0 & He0 & Hty0 & Hmax & ->)].
    + destruct (Hnone e); [|done]. apply is_create_update_app. by left.
    + apply is_create_update_app in He0 as [->|He0]; [done|].
      specialize (Hnew e0 He0 Hty0).
      assert (timestamp e ≤ timestamp e0); [|lia].
      apply Hmax; [|done]. apply is_create_update_app. by left.
Qed.

(** X9, on an instance: a fourth, later update put after the first row. *)
Lemma latest_update_id_insert_witness :
  event_type (create_update_event 40 "u4") = "create_update" ∧
  (∀ e', e' ∈ (take 1 three_updates ++ drop 1 three_updates)%list →
         event_type e' = "create_update" →
         timestamp e' < timestamp (create_update_event 40 "u4")) ∧
  latest_update_id
    (take 1 three_updates ++ create_update_event 40 "u4" :: drop 1 three_updates)
  = Returned (Some "u4").
Proof.
  assert (Hty : event_type (create_update_event 40 "u4") = "create_update")
    by reflexivity.
  assert (Hnew : ∀ e', e' ∈ (take 1 three_updates ++ drop 1 three_updates)%list →
            event_type e' = "create_update" →
            timestamp e' < timestamp (create_update_event 40 "u4")).
  { intros e' He' _. vm_compute in He'.
    repeat (apply elem_of_cons in He' as [->|He']; [simpl; lia|]).
    by apply elem_of_nil in He'. }
  split; [exact Hty|]. split; [exact Hnew|].
  exact (proj2 (latest_update_id_insert (take 1 three_updates) (drop 1 three_updates)
                  (create_update_event 40 "u4")) Hty Hnew).
Defined.

(** X10. The result does not depend on the order of the rows of the log,
    provided [create_update] events with the same timestamp carry the same
    [update_id] (with equal timestamps and different ids, [ORDER BY ...
    LIMIT 1] may pick either). *)
Theorem latest_update_id_order_free (log log' : list EventRecord) :
  log ≡ₚ log' →
  (∀ e1 e2, e1 ∈ log → e2 ∈ log →
            event_type e1 = "create_update" → event_type e2 = "create_update" →
            timestamp e1 = timestamp e2 →
            update_id (origin e1) = update_id (origin e2)) →
  latest_update_id log = latest_update_id log'.
Proof.
  intros Hperm Hties.
  destruct (latest_update_id_cases log) as [[Hnone ->]|(e & He & Hty & Hmax & ->)];
    destruct (latest_update_id_cases log')
      as [[Hnone' ->]|(e' & He' & Hty' & Hmax' & ->)]; [done| | |].
  - destruct (Hnone e'); [|done]. by rewrite Hperm.
  - destruct (Hnone' e); [|done]. by rewrite <- Hperm.
  - f_equal. apply Hties; [done|by rewrite Hperm|done|done|].
    assert (timestamp e' ≤ timestamp e) by (apply Hmax; [by rewrite Hperm|done]).
    assert (timestamp e ≤ timestamp e') by (apply Hmax'; [by rewrite <- Hperm|done]).
    lia.
Qed.

(** X10, on an instance: the three updates in reverse order. *)
Lemma latest_update_id_order_free_witness :
  three_updates ≡ₚ reverse three_updates ∧
  latest_update_id three_updates = latest_update_id (reverse three_updates).
Proof.
  assert (Hperm : three_updates ≡ₚ reverse three_updates).
  { symmetry. apply reverse_Permutation. }
  split; [exact Hperm|].
  apply (latest_update_id_order_free three_updates (reverse three_updates) Hperm).
  intros e1 e2 H1 H2 _ _. vm_compute in H1, H2.
  repeat (apply elem_of_cons in H1 as [->|H1]);
    try (by apply elem_of_nil in H1);
    repeat (apply elem_of_cons in H2 as [->|H2]);
    try (by apply elem_of_nil in H2); simpl; intros; (done || lia).
Defined.

(** ** More on the session *)

(** X11. What the cell of [latest_update_id] can do.  It raises the
    AttributeError exactly when the log has no [create_update] event, and
    the IllegalArgumentException only when a latest [create_update] event
    has a NULL [update_id].  When it returns, the id it stored is that of a
    [create_update] event none is later than; and when that id holds no
    single quote, backslash or dollar sign, so that the literal pasted into
    the SQL text denotes it, the lineage and data quality cells run next are
    the queries for that id. *)
Theorem set_latest_update_id_outcomes (s : Session) :
  (set_latest_update_id s = Raised AttributeError ↔
   ∀ e, e ∈ event_log_raw s → event_type e ≠ "create_update") ∧
  (set_latest_update_id s = Raised IllegalArgumentException →
   ∃ e, e ∈ event_log_raw s ∧ event_type e = "create_update" ∧
        (∀ e', e' ∈ event_log_raw s → event_type e' = "create_update" →
               timestamp e' ≤ timestamp e) ∧
        update_id (origin e) = None) ∧
  (∀ s', set_latest_update_id s = Returned s' →
   ∃ e id, e ∈ event_log_raw s ∧ event_type e = "create_update" ∧
           (∀ e', e' ∈ event_log_raw s → event_type e' = "create_update" →
                  timestamp e' ≤ timestamp e) ∧
           update_id (origin e) = Some id ∧
           event_log_raw s' = event_log_raw s ∧
           conf s' !! "latest_update.id" = Some id ∧
           (literal_safe id →
            lineage_cell s' = lineage_query (l1_arr (l1_raw (event_log_raw s) id)) ∧
            data_quality_cell s' = data_quality_metrics (event_log_raw s) id)).
Proof.
  unfold set_latest_update_id.
  destruct (latest_update_id_cases (event_log_raw s))
    as [[Hnone ->]|(e & He & Hty & Hmax & ->)].
  - split; [done|]. split; [done|]. intros s' [=].
  - split; [|split].
    + split; [by destruct (update_id (origin e))|].
      intros Hnone. by destruct (Hnone e He).
    + destruct (update_id (origin e)) as [id|] eqn:Hid; [done|].
      intros _. by exists e.
    + intros s'. destruct (update_id (origin e)) as [id|] eqn:Hid; [|done].
      intros [= <-]. exists e, id.
      split; [done|]. split; [done|]. split; [done|]. split; [done|].
      split; [done|].
      split; [simpl; by rewrite lookup_insert_eq|]. intros _.
      unfold lineage_cell, data_quality_cell.
      by rewrite (substituted_update_id_set s id).
Qed.

(** X11, on an instance: the session still set to the first update. *)
Lemma set_latest_update_id_outcomes_witness :
  set_latest_update_id stale_session = Returned fresh_session ∧
  literal_safe "u2" ∧
  lineage_cell fresh_session
  = lineage_query (l1_arr (l1_raw (event_log_raw stale_session) "u2")) ∧
  data_quality_cell fresh_session
  = data_quality_metrics (event_log_raw stale_session) "u2".
Proof.
  pose proof stale_session_run as Hrun.
  assert (Hsafe : literal_safe "u2") by (repeat constructor; discriminate).
  split; [exact Hrun|]. split; [exact Hsafe|].
  destruct (proj2 (proj2 (set_latest_update_id_outcomes stale_session))
              fresh_session Hrun)
    as (e & id & _ & _ & _ & _ & _ & Hid & Hcells).
  assert (id = "u2") as -> by (vm_compute in Hid; congruence).
  exact (Hcells Hsafe).
Defined.

(** ** More on the data quality metrics *)

Lemma exact_sum_Permutation vals vals' :
  vals ≡ₚ vals' → exact_sum vals = exact_sum vals'.
Proof.
  intros Hperm. unfold exact_sum.
  assert (Hp : omap id vals ≡ₚ omap id vals') by (by rewrite Hperm).
  assert (Htot : foldr Z.add 0 (omap id vals) = foldr Z.add 0 (omap id vals')).
  { clear Hperm. induction Hp; simpl; lia. }
  destruct (omap id vals) as [|n ns], (omap id vals') as [|n' ns'].
  - done.
  - by apply Permutation_nil_cons in Hp.
  - symmetry in Hp. by apply Permutation_nil_cons in Hp.
  - by rewrite Htot.
Qed.

Lemma row_expectations_Permutation log log' uid :
  log ≡ₚ log' → row_expectations log uid ≡ₚ row_expectations log' uid.
Proof. intros Hperm. unfold row_expectations. by rewrite Hperm. Qed.

Lemma group_sums_Permutation log log' uid g :
  log ≡ₚ log' →
  sql_sum (Expectation.passed_records <$> group g (row_expectations log uid))
  = sql_sum (Expectation.passed_records <$> group g (row_expectations log' uid)) ∧
  sql_sum (Expectation.failed_records <$> group g (row_expectations log uid))
  = sql_sum (Expectation.failed_records <$> group g (row_expectations log' uid)).
Proof.
  intros Hperm.
  assert (Hint : ∀ l, Forall in_int
            (Expectation.passed_records <$> group g (row_expectations l uid)) ∧
          Forall in_int
            (Expectation.failed_records <$> group g (row_expectations l uid))).
  { intros l. split; apply Forall_fmap, Forall_forall;
      intros x [_ Hx]%list_elem_of_filter; simpl;
      by apply (row_expectations_in_int l uid). }
  assert (Hg : group g (row_expectations log uid)
               ≡ₚ group g (row_expectations log' uid)).
  { unfold group. by rewrite (row_expectations_Permutation log log' uid Hperm). }
  split; rewrite !sql_sum_wrap by apply Hint; f_equal;
    apply exact_sum_Permutation; by rewrite Hg.
Qed.

(** X13. The data quality result does not depend on the order of the rows
    of the log: over a reordered log the query gives the same rows, each
    once, in some order.  The 64-bit sums agree too, overflow or not. *)
Theorem data_quality_metrics_order_free (log log' : list EventRecord) (uid : string) :
  log ≡ₚ log' →
  data_quality_metrics log uid ≡ₚ data_quality_metrics log' uid.
Proof.
  intros Hperm.
  assert (Hnd : ∀ l, NoDup (data_quality_metrics l uid)).
  { intros l. apply (NoDup_fmap_1 metric_key).
    rewrite metric_keys. apply NoDup_remove_dups. }
  apply NoDup_Permutation; [apply Hnd|apply Hnd|].
  intros m. rewrite !elem_of_data_quality_metrics.
  destruct (group_sums_Permutation log log' uid (metric_key m) Hperm) as [-> ->].
  assert (Hrows : (∃ x, x ∈ row_expectations log uid ∧ group_key x = metric_key m) ↔
                  (∃ x, x ∈ row_expectations log' uid ∧ group_key x = metric_key m)).
  { split; intros (x & Hx & Hk); exists x; (split; [|done]).
    - by rewrite <- (row_expectations_Permutation log log' uid Hperm).
    - by rewrite (row_expectations_Permutation log log' uid Hperm). }
  by rewrite Hrows.
Qed.

(** X13, on an instance: the two reports on orders in reverse order. *)
Lemma data_quality_metrics_order_free_witness :
  orders_log ≡ₚ reverse orders_log ∧
  data_quality_metrics orders_log "u" ≡ₚ data_quality_metrics (reverse orders_log) "u".
Proof.
  assert (Hperm : orders_log ≡ₚ reverse orders_log).
  { symmetry. apply reverse_Permutation. }
  split; [exact Hperm|].
  exact (data_quality_metrics_order_free orders_log (reverse orders_log) "u" Hperm).
Defined.

(** The total of two lists put together. *)
Lemma exact_sum_app vals vals' :
  exact_sum (vals ++ vals') = add_counts (exact_sum vals) (exact_sum vals').
Proof.
  unfold exact_sum, add_counts. rewrite omap_app.
  destruct (omap id vals) as [|n ns]; [done|].
  destruct (omap id vals') as [|m ms].
  - by rewrite app_nil_r.
  - simpl. f_equal. rewrite total_app. simpl. lia.
Qed.

(** X14. Counts add up over a log put together from two parts: for every
    pair (dataset, name) the exact total of [passed_records] (and of
    [failed_records]) over the whole log is the sum of the totals over the
    parts, a part without the pair counting as nothing; and when the pair
    has a row in the results of both parts and fewer than 2^32 elements in
    all, its reported counts are the sums of the counts reported for the
    parts. *)
Theorem data_quality_totals_add (log1 log2 : list EventRecord) (uid : string) :
  (∀ (g : option string * option string),
     exact_sum (Expectation.passed_records
                  <$> group g (row_expectations (log1 ++ log2) uid))
     = add_counts
         (exact_sum (Expectation.passed_records
                       <$> group g (row_expectations log1 uid)))
         (exact_sum (Expectation.passed_records
                       <$> group g (row_expectations log2 uid))) ∧
     exact_sum (Expectation.failed_records
                  <$> group g (row_expectations (log1 ++ log2) uid))
     = add_counts
         (exact_sum (Expectation.failed_records
                       <$> group g (row_expectations log1 uid)))
         (exact_sum (Expectation.failed_records
                       <$> group g (row_expectations log2 uid)))) ∧
  (∀ (m m1 m2 : Metric.t),
     m ∈ data_quality_metrics (log1 ++ log2) uid →
     m1 ∈ data_quality_metrics log1 uid → m2 ∈ data_quality_metrics log2 uid →
     metric_key m1 = metric_key m → metric_key m2 = metric_key m →
     Z.of_nat (length (group (metric_key m) (row_expectations (log1 ++ log2) uid)))
       < 2 ^ 32 →
     Metric.passing_records m
     = add_counts (Metric.passing_records m1) (Metric.passing_records m2) ∧
     Metric.failing_records m
     = add_counts (Metric.failing_records m1) (Metric.failing_records m2)).
Proof.
  assert (Hrows : row_expectations (log1 ++ log2) uid
                  = (row_expectations log1 uid ++ row_expectations log2 uid)%list).
  { unfold row_expectations. by rewrite filter_app, bind_app. }
  assert (Hadd : ∀ g,
            exact_sum (Expectation.passed_records
                         <$> group g (row_expectations (log1 ++ log2) uid))
            = add_counts
                (exact_sum (Expectation.passed_records
                              <$> group g (row_expectations log1 uid)))
                (exact_sum (Expectation.passed_records
                              <$> group g (row_expectations log2 uid))) ∧
            exact_sum (Expectation.failed_records
                         <$> group g (row_expectations (log1 ++ log2) uid))
            = add_counts
                (exact_sum (Expectation.failed_records
                              <$> group g (row_expectations log1 uid)))
                (exact_sum (Expectation.failed_records
                              <$> group g (row_expectations log2 uid)))).
  { intros g. rewrite Hrows. unfold group.
    rewrite filter_app, !fmap_app. split; apply exact_sum_app. }
  split; [exact Hadd|].
  intros m m1 m2 Hm Hm1 Hm2 Hk1 Hk2 Hlen.
  apply elem_of_data_quality_metrics in Hm as (_ & -> & ->).
  apply elem_of_data_quality_metrics in Hm1 as (_ & -> & ->).
  apply elem_of_data_quality_metrics in Hm2 as (_ & -> & ->).
  rewrite Hk1, Hk2.
  assert (Hlen' : Z.of_nat (length (group (metric_key m) (row_expectations log1 uid)))
                  < 2 ^ 32 ∧
                  Z.of_nat (length (group (metric_key m) (row_expectations log2 uid)))
                  < 2 ^ 32).
  { rewrite Hrows in Hlen. unfold group in Hlen |- *.
    rewrite filter_app, length_app in Hlen. lia. }
  destruct Hlen' as [Hlen1 Hlen2].
  destruct (group_sums_exact (log1 ++ log2) uid (metric_key m) Hlen) as [-> ->].
  destruct (group_sums_exact log1 uid (metric_key m) Hlen1) as [-> ->].
  destruct (group_sums_exact log2 uid (metric_key m) Hlen2) as [-> ->].
  apply Hadd.
Qed.

(** X14, on an instance: the two reports on orders, one in each part. *)
Lemma data_quality_totals_add_witness :
  orders_metric ∈ data_quality_metrics (take 1 orders_log ++ drop 1 orders_log) "u" ∧
  orders_part1 ∈ data_quality_metrics (take 1 orders_log) "u" ∧
  orders_part2 ∈ data_quality_metrics (drop 1 orders_log) "u" ∧
  Metric.passing_records orders_metric
  = add_counts (Metric.passing_records orders_part1)
               (Metric.passing_records orders_part2) ∧
  Metric.failing_records orders_metric
  = add_counts (Metric.failing_records orders_part1)
               (Metric.failing_records orders_part2).
Proof.
  assert (Hm : orders_metric
               ∈ data_quality_metrics (take 1 orders_log ++ drop 1 orders_log) "u")
    by (vm_compute; left).
  assert (Hm1 : orders_part1 ∈ data_quality_metrics (take 1 orders_log) "u")
    by (vm_compute; left).
  assert (Hm2 : orders_part2 ∈ data_quality_metrics (drop 1 orders_log) "u")
    by (vm_compute; left).
  split; [exact Hm|]. split; [exact Hm1|]. split; [exact Hm2|].
  apply (proj2 (data_quality_totals_add (take 1 orders_log) (drop 1 orders_log) "u")
           orders_metric orders_part1 orders_part2 Hm Hm1 Hm2);
    [reflexivity|reflexivity|vm_compute; reflexivity].
Defined.
